(** * Imprisoned: the state-machine engine of [imprisoned_env.py]

    A shallow embedding of [ImprisonedEnv] (construction,
    [get_available_actions], [step], [reset]) together with the two
    functions of Python's [random] module the engine calls, and the
    properties of the engine stated in the specification.

    Conventions.
    - The parsed YAML document is taken as already typed: state, action and
      item identifiers are strings, a weight is a Python int (exact) or a
      Python float (a binary64 value, as Rocq's primitive floats are).
    - A [dict] whose order is observable (the actions of a state, the
      probabilities of an action) is an association list in insertion
      order; the state graph, only ever looked up by key, is a [gmap];
      the inventory, a Python [set], is a [gset].
    - A method that may raise returns a [result]; an exception hands back
      no engine (what [self] holds after an uncaught exception is not
      modelled). The values Python's generator would draw are explicit
      arguments. *)

From Stdlib Require Import ZArith Lia Floats.
From stdpp Require Import base option list strings gmap.

Local Open Scope string_scope.

(** ** Exceptions *)

Inductive exn : Set :=
  IndexError | ValueError | KeyError | AssertionError | OverflowError.

Inductive result (A : Type) : Type :=
| Ok (a : A)
| Raise (x : exn).
Arguments Ok {A} a.
Arguments Raise {A} x.

#[global] Instance result_ret : MRet result := λ A a, Ok a.
#[global] Instance result_bind : MBind result := λ A B f m,
  match m with
  | Ok a => f a
  | Raise x => Raise x
  end.

Definition returns {A} (m : result A) : Prop := ∃ a, m = Ok a.

(** ** Python numbers *)

(** A weight of the document is a Python [int] or a Python [float]; a float
    is an IEEE 754 binary64 value, infinities and NaN included. *)
Inductive number : Type :=
| PyInt (z : Z)
| PyFloat (f : float).

(** [float(z)] for an int: the nearest binary64 value, ties to even;
    [OverflowError] when that is beyond the largest float. *)
Definition int_to_float (z : Z) : result float :=
  match binary_normalize prec emax z 0 false with
  | S754_infinity _ => Raise OverflowError
  | sf => Ok (SF2Prim sf)
  end.

Definition number_to_float (a : number) : result float :=
  match a with
  | PyInt z => int_to_float z
  | PyFloat f => Ok f
  end.

(** [a + b]: exact on two ints; otherwise both operands are taken to
    floats and added there. *)
Definition number_add (a b : number) : result number :=
  match a, b with
  | PyInt x, PyInt y => Ok (PyInt (x + y))
  | _, _ => x ← number_to_float a; y ← number_to_float b; Ok (PyFloat (x + y))
  end.

(** [x < z] for a float and an int: Python compares the two values
    exactly, without converting the int. A finite float is
    [(+/-) m * 2 ^ e]. *)
Definition float_lt_int (x : float) (z : Z) : bool :=
  match Prim2SF x with
  | S754_nan => false
  | S754_infinity s => s
  | S754_zero _ => (0 <? z)%Z
  | S754_finite s m e =>
      let v := if s then Z.neg m else Z.pos m in
      if (0 <=? e)%Z then (v * 2 ^ e <? z)%Z else (v <? z * 2 ^ (- e))%Z
  end.

(** [x < a] for a float [x]. *)
Definition float_lt (x : float) (a : number) : bool :=
  match a with
  | PyInt z => float_lt_int x z
  | PyFloat f => (x <? f)%float
  end.

(** ** The configuration document *)

(** One entry of a state's [actions] mapping. [requires] is
    [details.get("conditions", {}).get("requires")]; a key that is absent
    from the document is [None]. *)
Record ActionDef : Type := {
  act_description : option string;
  requires : option string;
  grants : option string;
  next_state : option string;
  probabilities : option (list (string * number))
}.

Record StateDef : Type := {
  description : option string;
  st_terminal : option bool;
  actions : list (string * ActionDef)
}.

(** ** The engine: the attributes of [self] *)

Record Env : Type := {
  states : gmap string StateDef;
  starting_states : list string;
  current_state : string;
  terminal : bool;
  inventory : gset string
}.

(** [d[key]] and [key in d] for an insertion-ordered dict. *)
Fixpoint dict_get {V} (d : list (string * V)) (key : string) : option V :=
  match d with
  | [] => None
  | (k, v) :: d' => if decide (k = key) then Some v else dict_get d' key
  end.

(** [s in states]. *)
Definition is_state (graph : gmap string StateDef) (s : string) : bool :=
  match graph !! s with
  | Some _ => true
  | None => false
  end.

Definition has_state (e : Env) (s : string) : bool := is_state (states e) s.

(** ** [get_available_actions] *)

(** The test [not required_item or required_item in self.inventory]:
    Python's [not] holds of [None] and of the empty string. *)
Definition requirement_met (inv : gset string) (required_item : option string) : bool :=
  match required_item with
  | None => true
  | Some r => bool_decide (r = EmptyString) || bool_decide (r ∈ inv)
  end.

(** The loop over [actions.items()], appending in order. *)
Fixpoint collect_available (inv : gset string) (items : list (string * ActionDef))
  : list string :=
  match items with
  | [] => []
  | (action, details) :: rest =>
      if requirement_met inv (requires details)
      then action :: collect_available inv rest
      else collect_available inv rest
  end.

Definition get_available_actions (e : Env) : list string :=
  match states e !! current_state e with
  | None => []
  | Some st => collect_available (inventory e) (actions st)
  end.

Definition get_state_description (e : Env) : string :=
  match states e !! current_state e with
  | None => "Unknown state."
  | Some st => default "Unknown state." (description st)
  end.

(** ** Python sequences and the [random] module *)

(** [seq[i]] on a list: a negative index counts from the end, an index
    outside [-len, len) raises [IndexError]. *)
Definition py_index {A} (seq : list A) (i : Z) : result A :=
  let n := Z.of_nat (length seq) in
  let j := if (i <? 0)%Z then (i + n)%Z else i in
  if (j <? 0)%Z then Raise IndexError
  else match seq !! Z.to_nat j with
       | Some x => Ok x
       | None => Raise IndexError
       end.

(** [random.choice(seq)]: [IndexError] on an empty sequence, otherwise
    [seq[_randbelow(len(seq))]]. The integer the generator supplies is the
    argument [k], brought below [len(seq)]. *)
Definition random_choice {A} (seq : list A) (k : nat) : result A :=
  match seq with
  | [] => Raise IndexError
  | _ => match seq !! (k mod length seq) with
         | Some x => Ok x
         | None => Raise IndexError
         end
  end.

(** [list(itertools.accumulate(weights))]: the running sums, the first
    being the first weight itself; an addition that raises ends it. *)
Fixpoint accumulate_from (acc : number) (weights : list number) : result (list number) :=
  match weights with
  | [] => Ok []
  | w :: rest =>
      acc' ← number_add acc w;
      tail ← accumulate_from acc' rest;
      Ok (acc' :: tail)
  end.

Definition accumulate (weights : list number) : result (list number) :=
  match weights with
  | [] => Ok []
  | w :: rest => tail ← accumulate_from w rest; Ok (w :: tail)
  end.

(** [bisect.bisect_right(a, x, lo, hi)]:
<<
    while lo < hi:
        mid = (lo + hi) // 2
        if x < a[mid]: hi = mid
        else: lo = mid + 1
    return lo
>>
    [hi - lo] strictly decreases, so [hi - lo] rounds are enough. *)
Fixpoint bisect_loop (fuel : nat) (a : list number) (x : float) (lo hi : nat) : nat :=
  match fuel with
  | O => lo
  | S fuel' =>
      if (lo <? hi)%nat then
        let mid := ((lo + hi) / 2)%nat in
        if float_lt x (nth mid a (PyInt 0))
        then bisect_loop fuel' a x lo mid
        else bisect_loop fuel' a x (mid + 1)%nat hi
      else lo
  end.

Definition bisect (a : list number) (x : float) (lo hi : nat) : nat :=
  bisect_loop (hi - lo) a x lo hi.

(** The total [random.choices] draws against: [cum_weights[-1] + 0.0],
    the last running sum taken to a float. *)
Definition choices_total (weights : list number) : result float :=
  cum_weights ← accumulate weights;
  last ← py_index cum_weights (-1);
  total ← number_to_float last;
  Ok (total + 0)%float.

(** [random.choices(population, weights)[0]], with [u] the value of the one
    call of [random()]:
<<
    n = len(population)
    cum_weights = list(accumulate(weights))
    if len(cum_weights) != n: raise ValueError
    total = cum_weights[-1] + 0.0
    if total <= 0.0: raise ValueError
    if not isfinite(total): raise ValueError
    hi = n - 1
    return [population[bisect(cum_weights, random() * total, 0, hi)]]
>>
    [cum_weights[-1]] raises [IndexError] when there is no weight, and
    the conversion of an int too large for a float [OverflowError]. *)
Definition random_choices {A} (population : list A) (weights : list number) (u : float)
  : result A :=
  let n := length population in
  cum_weights ← accumulate weights;
  if negb (length cum_weights =? n)%nat then Raise ValueError
  else
    last ← py_index cum_weights (-1);
    total ← number_to_float last;
    let total := (total + 0)%float in
    if (total <=? 0)%float then Raise ValueError
    else if negb (is_finite total) then Raise ValueError
    else
      let hi := (n - 1)%nat in
      py_index population (Z.of_nat (bisect cum_weights (u * total)%float 0 hi)).

(** ** [step] *)

(** [not seq] for a list. *)
Definition is_empty {A} (seq : list A) : bool :=
  match seq with
  | [] => true
  | _ :: _ => false
  end.

(** The numbers the generator hands out during one call of [step]: to
    [random.choices] (line 78), to the fallback [random.choice] (line 85)
    and to the recovery [random.choice] (line 95). *)
Record Draws : Type := {
  choices_draw : float;
  fallback_draw : nat;
  recovery_draw : nat
}.

(** What [step] returns: [(self.current_state, reward, self.terminal)]; the
    fourth component is always the empty dict. *)
Definition Observation : Type := string * Z * bool.

Definition with_episode (e : Env) (cs : string) (t : bool) (inv : gset string) : Env :=
  {| states := states e; starting_states := starting_states e;
     current_state := cs; terminal := t; inventory := inv |}.

(** Both penalty returns (lines 61 and 65): nothing is assigned. *)
Definition penalty (e : Env) : result (Env * Observation) :=
  Ok (e, (current_state e, (-1)%Z, true)).

(** Lines 75-80. *)
Definition determine_next_state (e : Env) (action_data : ActionDef) (u : float)
  : result string :=
  match probabilities action_data with
  | Some probs => random_choices (probs.*1) (probs.*2) u
  | None => Ok (default (current_state e) (next_state action_data))
  end.

(** Lines 67-80: the chosen action, the inventory after its grant and the
    next state it resolves to. *)
Definition resolve (e : Env) (available : list string) (action_index : Z) (u : float)
  : result (gset string * string) :=
  chosen_action ← py_index available action_index;
  st ← from_option Ok (Raise KeyError) (states e !! current_state e);
  action_data ← from_option Ok (Raise KeyError) (dict_get (actions st) chosen_action);
  let inv := match grants action_data with
             | Some item => {[ item ]} ∪ inventory e
             | None => inventory e
             end in
  new_state ← determine_next_state e action_data u;
  Ok (inv, new_state).

(** Lines 83-85. *)
Definition ensure_exists (e : Env) (new_state : string) (k : nat) : result string :=
  if has_state e new_state then Ok new_state
  else random_choice (starting_states e) k.

(** Lines 83-89: the integrity check, then the two assignments. *)
Definition commit (e : Env) (inv : gset string) (new_state : string) (k : nat)
  : result Env :=
  new_state ← ensure_exists e new_state k;
  st ← from_option Ok (Raise KeyError) (states e !! new_state);
  Ok (with_episode e new_state (default false (st_terminal st)) inv).

(** Lines 67-89: from the chosen index to the committed state. *)
Definition transition (e : Env) (available : list string) (action_index : Z) (d : Draws)
  : result Env :=
  '(inv, new_state) ← resolve e available action_index (choices_draw d);
  commit e inv new_state (fallback_draw d).

Definition reward_of (e : Env) : Z :=
  if decide (current_state e = "escape_success") then 1%Z
  else if terminal e then (-1)%Z else 0%Z.

(** Lines 91-104: recovery from a state without actions, then the reward. *)
Definition settle (e : Env) (k : nat) : result (Env * Observation) :=
  e' ← (if is_empty (get_available_actions e) && negb (terminal e)
        then cs ← random_choice (starting_states e) k;
             Ok (with_episode e cs (terminal e) (inventory e))
        else Ok e);
  Ok (e', (current_state e', reward_of e', terminal e')).

Definition step (e : Env) (action_index : Z) (d : Draws) : result (Env * Observation) :=
  let available := get_available_actions e in
  if is_empty available then penalty e
  else if (Z.of_nat (length available) <=? action_index)%Z then penalty e
  else e1 ← transition e available action_index d; settle e1 (recovery_draw d).

(** ** [reset] *)

(** Lines 108-111. The loop draws again while the pick is not a state;
    [more] holds the integers the generator would supply to the further
    calls of [random.choice], and [None] says that they were used up. *)
Fixpoint reset_loop (e : Env) (cs : string) (more : list nat) : option (result string) :=
  if has_state e cs then Some (Ok cs)
  else match more with
       | [] => None
       | k :: more' =>
           match random_choice (starting_states e) k with
           | Ok cs' => reset_loop e cs' more'
           | Raise x => Some (Raise x)
           end
       end.

Definition reset (e : Env) (k : nat) (more : list nat) : option (result (Env * string)) :=
  match random_choice (starting_states e) k with
  | Raise x => Some (Raise x)
  | Ok cs =>
      match reset_loop e cs more with
      | None => None
      | Some (Raise x) => Some (Raise x)
      | Some (Ok cs') => Some (Ok (with_episode e cs' false ∅, cs'))
      end
  end.

(** ** Construction *)

(** The parsed document: [game_data.get("states", {})] and
    [game_data.get("starting_states", [])] read the two optional keys. *)
Record GameData : Type := {
  gd_states : option (gmap string StateDef);
  gd_starting_states : option (list string)
}.

Section Construction.

(** [gymnasium.spaces.Discrete(n)] is outside this repository: whether it
    accepts a size is left open (it asserts that the size is positive). *)
Variable discrete_accepts : nat → bool.

(** [__init__], from the parsed document on; [k] feeds [random.choice]. *)
Definition init (game_data : GameData) (k : nat) : result Env :=
  let states0 := default ∅ (gd_states game_data) in
  let starting0 := default [] (gd_starting_states game_data) in
  let starting := List.filter (is_state states0) starting0 in
  if is_empty starting then Raise ValueError
  else
    cs ← random_choice starting k;
    let e := {| states := states0; starting_states := starting;
                current_state := cs; terminal := false; inventory := ∅ |} in
    if discrete_accepts (length (get_available_actions e))
       && discrete_accepts (size (states e))
    then Ok e
    else Raise AssertionError.

End Construction.

(** What construction establishes and no method changes: the starting
    states are states, and there is one. *)
Definition constructed (e : Env) : bool :=
  negb (is_empty (starting_states e)) && forallb (has_state e) (starting_states e).

(** ** The action an index selects *)

(** For an index from [0] on: the entry of the current state's actions
    that lines 67-68 of [step] read. *)
Definition selected_action (e : Env) (idx : Z) : option ActionDef :=
  name ← get_available_actions e !! Z.to_nat idx;
  st ← states e !! current_state e;
  dict_get (actions st) name.

(** The weights leave the weighted draw defined: the running sums can be
    formed, there is a last one, and as a float it is above zero and
    finite. *)
Definition weights_usable (weights : list number) : bool :=
  match choices_total weights with
  | Ok total => negb (total <=? 0)%float && is_finite total
  | Raise _ => false
  end.

(** The selected action, if any, leaves the weighted draw defined: it has
    no [probabilities], or weights that are usable. *)
Definition draw_defined (e : Env) (idx : Z) : bool :=
  match selected_action e idx with
  | Some action_data =>
      match probabilities action_data with
      | Some probs => weights_usable (probs.*2)
      | None => true
      end
  | None => true
  end.

(** ** Integer weights *)




(** ** The gating condition, as a proposition *)

(** The condition as the code tests it: no requirement, the empty
    requirement, or a held item. *)
Definition unlocked (inv : gset string) (details : ActionDef) : Prop :=
  match requires details with
  | None => True
  | Some r => r = EmptyString ∨ r ∈ inv
  end.

(** The condition in the words of the specification: no requirement, or a
    held item. *)
Definition absent_or_held (inv : gset string) (details : ActionDef) : Prop :=
  match requires details with
  | None => True
  | Some r => r ∈ inv
  end.

#[global] Instance unlocked_dec inv details : Decision (unlocked inv details).
Proof. unfold unlocked. destruct (requires details); apply _. Defined.

#[global] Instance absent_or_held_dec inv details : Decision (absent_or_held inv details).
Proof. unfold absent_or_held. destruct (requires details); apply _. Defined.

(** ** A configuration to run the engine on *)

Definition action (req gr nxt : option string) (probs : option (list (string * number)))
  : ActionDef :=
  {| act_description := None; requires := req; grants := gr;
     next_state := nxt; probabilities := probs |}.

Definition state (t : option bool) (acts : list (string * ActionDef)) : StateDef :=
  {| description := None; st_terminal := t; actions := acts |}.

Definition run_probs : list (string * number) :=
  [("escape_success", PyInt 3); ("caught", PyInt 1)].

Definition run : ActionDef := action None None None (Some run_probs).

(** A cell with a key to find, a corridor with a 3:1 chance to get out, a pit
    without exits, and a few malformed entries: an action gated on the empty
    item, a transition into a state that does not exist, an empty
    probabilities mapping and one whose weights are all zero. *)
Definition jail_states : gmap string StateDef :=
  list_to_map
    [("cell", state None
        [("search", action None (Some "key") (Some "cell") None);
         ("open", action (Some "key") None (Some "corridor") None);
         ("hum", action (Some EmptyString) None None None);
         ("dig", action None None (Some "tunnel") None);
         ("jump", action None None (Some "pit") None);
         ("pray", action None None None (Some []));
         ("bribe", action None None None (Some [("corridor", PyInt 0); ("caught", PyInt 0)]))]);
     ("corridor", state None
        [("run", run)]);
     ("pit", state None []);
     ("escape_success", state (Some true) []);
     ("caught", state (Some true) [])].

Definition jail_doc : GameData :=
  {| gd_states := Some jail_states;
     gd_starting_states := Some ["cell"; "attic"; "pit"] |}.

(** The engine as constructed from [jail_doc] when the first pick is the cell. *)
Definition jail : Env :=
  {| states := jail_states; starting_states := ["cell"; "pit"];
     current_state := "cell"; terminal := false; inventory := ∅ |}.

Definition jail_at (cs : string) (inv : gset string) : Env :=
  with_episode jail cs false inv.

(** A vault whose one action grants gold and lists an int weight too large
    for a float. *)
Definition vault_states : gmap string StateDef :=
  list_to_map
    [("vault", state None
        [("grab", action None (Some "gold") None
                    (Some [("vault", PyInt (10 ^ 400)); ("out", PyInt 1)]))]);
     ("out", state (Some true) [])].

Definition vault : Env :=
  {| states := vault_states; starting_states := ["vault"];
     current_state := "vault"; terminal := false; inventory := ∅ |}.




Definition draws (u : float) (k1 k2 : nat) : Draws :=
  {| choices_draw := u; fallback_draw := k1; recovery_draw := k2 |}.

(** ** [step] as a method: the engine it leaves behind, also on a raise *)

(** A method runs on the engine and leaves an engine behind whether it
    returns or raises. *)
Definition Method (A : Type) : Type := Env → Env * result A.

#[global] Instance method_ret : MRet Method := λ A a e, (e, Ok a).
#[global] Instance method_bind : MBind Method := λ A B f m e,
  match m e with
  | (e1, Ok a) => f a e1
  | (e1, Raise x) => (e1, Raise x)
  end.

(** Reading [self]; a call that may raise and assigns nothing; the three
    assignments [step] makes. *)
Definition attr {A} (f : Env → A) : Method A := λ e, (e, Ok (f e)).

Definition try_call {A} (r : result A) : Method A := λ e, (e, r).

Definition set_current_state (s : string) : Method unit :=
  λ e, (with_episode e s (terminal e) (inventory e), Ok ()).

Definition set_terminal (t : bool) : Method unit :=
  λ e, (with_episode e (current_state e) t (inventory e), Ok ()).

Definition inventory_add (item : string) : Method unit :=
  λ e, (with_episode e (current_state e) (terminal e) ({[ item ]} ∪ inventory e), Ok ()).

(** Lines 82-104 of [step]: from the next state determined to the triple
    returned. *)
Definition finish_method (new_state : string) (d : Draws) : Method Observation :=
  graph ← attr states;
  starting ← attr starting_states;
  new_state ← (if is_state graph new_state then mret new_state
               else try_call (random_choice starting (fallback_draw d)));
  _ ← set_current_state new_state;
  st ← try_call (from_option Ok (Raise KeyError) (graph !! new_state));
  _ ← set_terminal (default false (st_terminal st));
  available ← attr get_available_actions;
  t ← attr terminal;
  _ ← (if is_empty available && negb t
       then cs ← try_call (random_choice starting (recovery_draw d));
            set_current_state cs
       else mret ());
  cs ← attr current_state;
  reward ← attr reward_of;
  t ← attr terminal;
  mret (cs, reward, t).

(** [step], statement by statement (lines 58-104). *)
Definition step_method (action_index : Z) (d : Draws) : Method Observation :=
  available ← attr get_available_actions;
  if is_empty available then
    cs ← attr current_state; mret (cs, (-1)%Z, true)
  else if (Z.of_nat (length available) <=? action_index)%Z then
    cs ← attr current_state; mret (cs, (-1)%Z, true)
  else
    chosen_action ← try_call (py_index available action_index);
    graph ← attr states;
    cs ← attr current_state;
    st ← try_call (from_option Ok (Raise KeyError) (graph !! cs));
    action_data ← try_call (from_option Ok (Raise KeyError)
                              (dict_get (actions st) chosen_action));
    _ ← match grants action_data with
        | Some item => inventory_add item
        | None => mret ()
        end;
    new_state ← match probabilities action_data with
                | Some probs => try_call (random_choices (probs.*1) (probs.*2) (choices_draw d))
                | None => mret (default cs (next_state action_data))
                end;
    finish_method new_state d.

(** ** [play_game] of [game.py] *)

(** What the driver can end with beyond the engine's exceptions: the end of
    the input at the prompt, and the read of [reward] before any step has
    assigned it. *)
Inductive driver_exn : Set :=
| EngineError (x : exn)
| EOFError
| UnboundLocalError.

(** The closing message (lines 37-43); what else is printed is left out. *)
Inductive verdict : Set :=
| Escaped
| GameOver (state_desc : string)
| FailedToEscape.

(** The locals of [play_game]; [reward] is unbound until a step returns. *)
Record Locals : Type := {
  observation : string;
  reward : option Z;
  done : bool
}.

(** The [while not done] loop (lines 13-34). Every round that reaches the
    prompt reads one line: [None] is a line [int] rejects with
    [ValueError], [Some n] the number typed; the draws next to it are those
    the generator would hand to a step in that round. With no line left,
    [input] raises [EOFError]. The [try] encloses the call of [step], so a
    [ValueError] out of [step] is handled like a line that is no number. *)
Fixpoint game_loop (env : Env) (loc : Locals) (inputs : list (option Z * Draws))
  : Env * Locals * option driver_exn :=
  if done loc then (env, loc, None)
  else
    let available := get_available_actions env in
    if is_empty available then (env, loc, None)
    else
      match inputs with
      | [] => (env, loc, Some EOFError)
      | (None, _) :: rest => game_loop env loc rest
      | (Some n, d) :: rest =>
          let choice := (n - 1)%Z in
          if (0 <=? choice)%Z && (choice <? Z.of_nat (length available))%Z then
            match step_method choice d env with
            | (env', Ok (obs, r, t)) =>
                game_loop env' {| observation := obs; reward := Some r; done := t |} rest
            | (env', Raise ValueError) => game_loop env' loc rest
            | (env', Raise x) => (env', loc, Some (EngineError x))
            end
          else game_loop env loc rest
      end.

(** How [play_game] ends: with a closing message, or with an exception
    nobody handles. *)
Inductive ending : Set :=
| Message (v : verdict)
| Uncaught (x : driver_exn).

(** Lines 36-43, on the locals and the engine the loop leaves. *)
Definition closing_message (env : Env) (loc : Locals) : ending :=
  if decide (observation loc = "escape_success") then Message Escaped
  else match reward loc with
       | None => Uncaught UnboundLocalError
       | Some r =>
           if (r =? -1)%Z then Message (GameOver (get_state_description env))
           else Message FailedToEscape
       end.

(** Lines 12-43, from the state [reset] returned: the engine and the locals
    at the end are kept next to the ending. *)
Definition play_from (env : Env) (obs : string) (inputs : list (option Z * Draws))
  : Env * Locals * ending :=
  let '(env', loc, exc) :=
    game_loop env {| observation := obs; reward := None; done := false |} inputs in
  (env', loc, match exc with
              | Some x => Uncaught x
              | None => closing_message env' loc
              end).

(** [play_game], from the constructed engine on (the engine is built from
    the file "imprisoned.yaml", which is not part of the model). [None]:
    the loop of [reset] used up its draws. *)
Definition play_game (env : Env) (k : nat) (more : list nat)
    (inputs : list (option Z * Draws)) : option ending :=
  match reset env k more with
  | None => None
  | Some (Raise x) => Some (Uncaught (EngineError x))
  | Some (Ok (env', obs)) => Some (play_from env' obs inputs).2
  end.

(** ** Conditions on the driver's state and on a configuration *)


(** A line the driver does not act on when [available] actions are listed:
    no number, or a number outside [1, available]. *)
Definition rejected_line (available : nat) (line : option Z) : Prop :=
  match line with
  | None => True
  | Some n => (n < 1 ∨ Z.of_nat available < n)%Z
  end.

(** Every [probabilities] mapping of the graph has usable weights. *)
Definition action_weights_ok (action_data : ActionDef) : bool :=
  match probabilities action_data with
  | Some probs => weights_usable (probs.*2)
  | None => true
  end.

Definition graph_weights_ok (graph : gmap string StateDef) : bool :=
  forallb (λ entry, forallb (λ item, action_weights_ok item.2) (actions entry.2))
          (map_to_list graph).

(** ** A second configuration: a shop *)

(** From the shop one can take a coin, haggle (which grants a coin but has
    weights that are all zero), or leave through the door once a coin is
    held; the street is terminal. The well is a starting state without
    actions. *)
Definition shop_states : gmap string StateDef :=
  list_to_map
    [("shop", state None
        [("take", action None (Some "coin") None None);
         ("haggle", action None (Some "coin") None
                      (Some [("street", PyInt 0); ("shop", PyInt 0)]));
         ("leave", action (Some "coin") None (Some "street") None)]);
     ("street", {| description := Some "You are out on the street.";
                   st_terminal := Some true; actions := [] |});
     ("well", state None [])].

(** A third one, with nothing malformed: a yard with a gate that opens one
    time in four. *)
Definition yard_states : gmap string StateDef :=
  list_to_map
    [("yard", state None
        [("wait", action None None None None);
         ("gate", action None None None
                    (Some [("escape_success", PyInt 1); ("yard", PyInt 3)]))]);
     ("escape_success", state (Some true) [])].

Definition yard : Env :=
  {| states := yard_states; starting_states := ["yard"];
     current_state := "yard"; terminal := false; inventory := ∅ |}.

Definition shop : Env :=
  {| states := shop_states; starting_states := ["shop"; "well"];
     current_state := "shop"; terminal := false; inventory := ∅ |}.

(** * Properties *)

(** ** Results and draws *)

Lemma bind_Ok {A B} (m : result A) (f : A → result B) (b : B) :
  m ≫= f = Ok b → ∃ a, m = Ok a ∧ f a = Ok b.
Proof. destruct m as [a|x]; simpl; [eauto | discriminate]. Qed.

Lemma is_empty_nil {A} (seq : list A) : is_empty seq = true ↔ seq = [].
Proof. destruct seq; simpl; split; congruence. Qed.

Lemma random_choice_elem {A} (seq : list A) (k : nat) (x : A) :
  random_choice seq k = Ok x → x ∈ seq.
Proof.
  unfold random_choice. destruct seq as [|y seq]; [discriminate|].
  destruct (_ !! _) eqn:Hl; [|discriminate].
  intros [= <-]. eapply list_elem_of_lookup_2, Hl.
Qed.

Lemma random_choice_returns {A} (seq : list A) (k : nat) :
  seq ≠ [] → ∃ x, random_choice seq k = Ok x ∧ x ∈ seq.
Proof.
  intros Hne. unfold random_choice. destruct seq as [|y seq]; [done|].
  destruct (lookup_lt_is_Some_2 (y :: seq) (k mod length (y :: seq))) as [x Hx].
  { apply Nat.mod_upper_bound. simpl. lia. }
  rewrite Hx. eauto using list_elem_of_lookup_2.
Qed.

Lemma constructed_starting (e : Env) :
  constructed e = true →
  starting_states e ≠ [] ∧ ∀ s, s ∈ starting_states e → has_state e s = true.
Proof.
  unfold constructed. intros [Hne Hall]%andb_prop. split.
  - intros Heq. rewrite Heq in Hne. discriminate.
  - intros s Hs. rewrite forallb_forall in Hall. by apply Hall, list_elem_of_In.
Qed.

Lemma has_state_lookup (e : Env) (s : string) :
  has_state e s = true ↔ is_Some (states e !! s).
Proof.
  unfold has_state, is_state. destruct (states e !! s); split; try done; eauto.
Qed.

(** ** Available actions *)

Lemma requirement_met_unlocked inv details :
  requirement_met inv (requires details) = true ↔ unlocked inv details.
Proof.
  unfold requirement_met, unlocked. destruct (requires details) as [r|]; [|done].
  rewrite orb_true_iff, !bool_decide_eq_true. done.
Qed.

Lemma collect_available_filter inv items :
  collect_available inv items = (filter (λ item, unlocked inv item.2) items).*1.
Proof.
  induction items as [|[action details] rest IH]; [done|].
  simpl. rewrite filter_cons. simpl.
  destruct (requirement_met inv (requires details)) eqn:Hm.
  - apply requirement_met_unlocked in Hm.
    destruct (decide (unlocked inv details)); [|done]. simpl. by rewrite IH.
  - destruct (decide (unlocked inv details)) as [Hu|]; [|done].
    apply requirement_met_unlocked in Hu. congruence.
Qed.

Lemma collect_available_key inv items action :
  action ∈ collect_available inv items → is_Some (dict_get items action).
Proof.
  induction items as [|[k details] rest IH]; simpl.
  - intros H. by apply elem_of_nil in H.
  - destruct (decide (k = action)) as [->|Hne]; [eauto|].
    destruct (requirement_met _ _); [|done].
    intros [?|?]%elem_of_cons; [congruence | auto].
Qed.

(** ** The shape of [step] *)

Lemma step_penalty (e : Env) (idx : Z) (d : Draws) :
  get_available_actions e = [] ∨ (Z.of_nat (length (get_available_actions e)) ≤ idx)%Z →
  step e idx d = penalty e.
Proof.
  intros H. unfold step. destruct (is_empty _) eqn:He; [done|].
  destruct H as [H|H].
  - apply is_empty_nil in H. congruence.
  - apply Z.leb_le in H. by rewrite H.
Qed.

Lemma step_valid (e : Env) (idx : Z) (d : Draws) :
  get_available_actions e ≠ [] →
  (idx < Z.of_nat (length (get_available_actions e)))%Z →
  step e idx d =
    transition e (get_available_actions e) idx d ≫= λ e1, settle e1 (recovery_draw d).
Proof.
  intros Hne Hlt. unfold step.
  destruct (is_empty _) eqn:He; [by apply is_empty_nil in He|].
  apply Z.leb_gt in Hlt. by rewrite Hlt.
Qed.

Lemma commit_Ok (e : Env) inv ns k (ec : Env) :
  commit e inv ns k = Ok ec →
  ∃ cs st, ensure_exists e ns k = Ok cs ∧ states e !! cs = Some st ∧
           ec = with_episode e cs (default false (st_terminal st)) inv.
Proof.
  unfold commit. intros (cs & Hcs & H)%bind_Ok.
  apply bind_Ok in H as (st & Hst & [= <-]).
  destruct (states e !! cs) eqn:Hl; simpl in Hst; [|discriminate].
  injection Hst as ->. eauto.
Qed.

Lemma transition_Ok (e : Env) av idx d (ec : Env) :
  transition e av idx d = Ok ec →
  ∃ inv ns, resolve e av idx (choices_draw d) = Ok (inv, ns) ∧
            commit e inv ns (fallback_draw d) = Ok ec.
Proof.
  unfold transition. intros ([inv ns] & Hr & Hc)%bind_Ok. eauto.
Qed.

Lemma settle_Ok (e : Env) k (e' : Env) (o : Observation) :
  settle e k = Ok (e', o) →
  o = (current_state e', reward_of e', terminal e') ∧
  states e' = states e ∧ starting_states e' = starting_states e ∧
  terminal e' = terminal e ∧ inventory e' = inventory e ∧
  ((get_available_actions e = [] ∧ terminal e = false ∧
    random_choice (starting_states e) k = Ok (current_state e'))
   ∨ (e' = e ∧ ¬ (get_available_actions e = [] ∧ terminal e = false))).
Proof.
  unfold settle. intros (e1 & He1 & [= <- <-])%bind_Ok.
  split; [done|].
  destruct (is_empty _ && negb _) eqn:Hc.
  - apply andb_prop in Hc as [Hc1%is_empty_nil Hc2%negb_true_iff].
    apply bind_Ok in He1 as (cs & Hcs & [= <-]). simpl. naive_solver.
  - injection He1 as <-. repeat split; try done. right. split; [done|].
    intros [H1%is_empty_nil H2]. rewrite H1, H2 in Hc. done.
Qed.

(** ** C2: the available actions *)

(** C2 (as amended). In every engine state [get_available_actions] returns, in
    the insertion order of the current state's action mapping, exactly the
    action ids whose [conditions.requires] is absent, is the empty string,
    or is an item of the inventory; it returns the empty sequence when
    [current_state] is not a key of the state graph. Being a function of
    the engine state that yields only the sequence, it assigns neither the
    inventory nor [current_state], and asked twice of one state it answers
    the same. *)
Theorem get_available_actions_spec (e : Env) :
  get_available_actions e =
    match states e !! current_state e with
    | None => []
    | Some st => (filter (λ item, unlocked (inventory e) item.2) (actions st)).*1
    end.
Proof.
  unfold get_available_actions. destruct (states e !! current_state e); [|done].
  apply collect_available_filter.
Qed.

(** Counterexample to C2 as worded: in the cell of [jail], with
    nothing held, "hum" is offered although its [requires] is present (the
    empty string) and is not in the inventory. *)
Lemma get_available_actions_empty_requirement :
  ∃ st, states jail !! current_state jail = Some st ∧
    get_available_actions jail ≠
      (filter (λ item, absent_or_held (inventory jail) item.2) (actions st)).*1.
Proof.
  eexists. split; [reflexivity|]. vm_compute. discriminate.
Qed.

(** ** C10: the penalty branches *)

(** C10. When [step] returns through a penalty branch (no available action,
    or an index at or beyond their number) it reports
    [(current_state, -1, True)] and stores nothing: [current_state], the
    inventory and the stored terminal flag are as before, and any later
    [get_available_actions] or [step] does what it would have done without
    the penalised call. *)
Theorem penalty_leaves_episode (e : Env) (idx : Z) (d : Draws) :
  get_available_actions e = [] ∨ (Z.of_nat (length (get_available_actions e)) ≤ idx)%Z →
  ∃ e', step e idx d = Ok (e', (current_state e, (-1)%Z, true)) ∧
    current_state e' = current_state e ∧
    inventory e' = inventory e ∧
    terminal e' = terminal e ∧
    get_available_actions e' = get_available_actions e ∧
    ∀ idx' d', step e' idx' d' = step e idx' d'.
Proof.
  intros H. exists e. rewrite (step_penalty _ _ _ H). done.
Qed.

Lemma penalty_leaves_episode_witness :
  ∃ e', step jail 99 (draws 0 0 0) = Ok (e', ("cell", (-1)%Z, true)) ∧
    current_state e' = "cell" ∧
    inventory e' = ∅ ∧
    terminal e' = false ∧
    get_available_actions e' = get_available_actions jail ∧
    ∀ idx' d', step e' idx' d' = step jail idx' d'.
Proof.
  apply (penalty_leaves_episode jail 99 (draws 0 0 0)).
  right. vm_compute. discriminate.
Defined.

(** ** C3: an index out of bounds *)

(** C3 (what the code does at a negative index). Six actions are available
    in the cell of [jail]. The index [-6] is not penalised: it is read from
    the end, takes "search", grants the key and reports a reward of 0 with
    the episode going on; the index [-7] raises [IndexError]. *)
Theorem negative_index_is_not_penalised :
  length (get_available_actions jail) = 6%nat ∧
  (∃ e', step jail (-6) (draws 0 0 0) = Ok (e', ("cell", 0%Z, false)) ∧
         inventory e' = {[ "key" ]}) ∧
  step jail (-7) (draws 0 0 0) = Raise IndexError.
Proof.
  split; [reflexivity|]. split; [|reflexivity].
  eexists. split; [vm_compute; reflexivity|].
  simpl. apply set_eq. intros x. set_solver.
Qed.

(** ** C1: the reward *)

(** C1. When [step] resolves a valid action (there are available actions
    and the index is below their number) and returns [(s, r, t)], then [s] is
    the current state after recovery, [t] is the terminal flag of the
    committed state, and [r] is [+1] exactly when [s] is "escape_success";
    otherwise [r] is [-1] when that flag is true and [0] when it is false. *)
Theorem step_reward (e : Env) (idx : Z) (d : Draws) (e' : Env) (s : string) (r : Z) (t : bool) :
  get_available_actions e ≠ [] →
  (idx < Z.of_nat (length (get_available_actions e)))%Z →
  step e idx d = Ok (e', (s, r, t)) →
  ∃ ec stc,
    transition e (get_available_actions e) idx d = Ok ec ∧
    states e !! current_state ec = Some stc ∧
    s = current_state e' ∧
    t = default false (st_terminal stc) ∧
    terminal e' = t ∧
    (r = 1%Z ↔ s = "escape_success") ∧
    (s ≠ "escape_success" → r = if default false (st_terminal stc) then (-1)%Z else 0%Z).
Proof.
  intros Hne Hlt Hstep. rewrite step_valid in Hstep by done.
  apply bind_Ok in Hstep as (ec & Htr & Hse).
  destruct (transition_Ok _ _ _ _ _ Htr) as (inv & ns & _ & Hc).
  apply commit_Ok in Hc as (cs & stc & _ & Hst & Hec).
  apply settle_Ok in Hse as ([= -> -> ->] & _ & _ & Hterm & _).
  exists ec, stc. split; [done|].
  assert (Ht : terminal ec = default false (st_terminal stc)) by (by subst ec).
  assert (Hcs : current_state ec = cs) by (by subst ec).
  rewrite Hcs. split; [done|]. split; [done|].
  rewrite Hterm, Ht. split; [done|]. split; [done|].
  unfold reward_of. rewrite Hterm, Ht.
  destruct (decide (current_state e' = "escape_success")) as [Heq|Hneq].
  - split; [done|]. intros; done.
  - split; [|done]. split; [|done]. by destruct (default false (st_terminal stc)).
Qed.

Lemma step_reward_witness :
  ∃ ec stc,
    transition (jail_at "corridor" ∅) (get_available_actions (jail_at "corridor" ∅)) 0
      (draws 0.5 0 0) = Ok ec ∧
    states (jail_at "corridor" ∅) !! current_state ec = Some stc ∧
    "escape_success" = current_state (with_episode jail "escape_success" true ∅) ∧
    true = default false (st_terminal stc) ∧
    terminal (with_episode jail "escape_success" true ∅) = true ∧
    (1%Z = 1%Z ↔ "escape_success" = "escape_success") ∧
    ("escape_success" ≠ "escape_success" →
     1%Z = if default false (st_terminal stc) then (-1)%Z else 0%Z).
Proof.
  apply (step_reward (jail_at "corridor" ∅) 0 (draws 0.5 0 0)
           (with_episode jail "escape_success" true ∅) "escape_success" 1%Z true).
  - vm_compute. discriminate.
  - vm_compute. reflexivity.
  - vm_compute. reflexivity.
Defined.

(** ** Engines as constructed *)

Lemma with_episode_constructed (e : Env) cs t inv :
  constructed (with_episode e cs t inv) = constructed e.
Proof. reflexivity. Qed.

Lemma commit_constructed (e : Env) inv ns k (ec : Env) :
  commit e inv ns k = Ok ec →
  states ec = states e ∧ starting_states ec = starting_states e.
Proof. intros (cs & st & _ & _ & ->)%commit_Ok. done. Qed.

Lemma ensure_exists_present (e : Env) ns k :
  constructed e = true →
  ∃ cs, ensure_exists e ns k = Ok cs ∧ has_state e cs = true ∧
        (has_state e ns = true ∧ cs = ns ∨
         has_state e ns = false ∧ cs ∈ starting_states e ∧
         random_choice (starting_states e) k = Ok cs).
Proof.
  intros [Hne Hall]%constructed_starting. unfold ensure_exists.
  destruct (has_state e ns) eqn:Hns; [eauto 6|].
  destruct (random_choice_returns (starting_states e) k Hne) as (cs & Hcs & Hin).
  exists cs. rewrite Hcs. eauto 8.
Qed.

Lemma commit_returns (e : Env) inv ns k :
  constructed e = true →
  ∃ cs st, ensure_exists e ns k = Ok cs ∧ states e !! cs = Some st ∧
    commit e inv ns k = Ok (with_episode e cs (default false (st_terminal st)) inv).
Proof.
  intros Hc. destruct (ensure_exists_present e ns k Hc) as (cs & Hcs & Hhas & _).
  apply has_state_lookup in Hhas as [st Hst].
  exists cs, st. unfold commit. rewrite Hcs. simpl. rewrite Hst. done.
Qed.

Lemma settle_returns (e : Env) k :
  constructed e = true → returns (settle e k).
Proof.
  intros [Hne _]%constructed_starting. unfold settle, returns.
  destruct (is_empty _ && negb _); [|simpl; eauto].
  destruct (random_choice_returns (starting_states e) k Hne) as (cs & -> & _).
  simpl. eauto.
Qed.

(** ** C4: recovery from a state without actions *)

(** C4 (as amended). On a constructed engine, when [step] resolves a valid
    action and the committed state is non-terminal with no available
    action, [step] returns with the engine relocated to a member of the
    starting states, the one the recovery draw picks; the pick is not
    examined again. *)
Theorem stuck_state_relocates (e : Env) (idx : Z) (d : Draws) (ec : Env) :
  constructed e = true →
  get_available_actions e ≠ [] →
  (idx < Z.of_nat (length (get_available_actions e)))%Z →
  transition e (get_available_actions e) idx d = Ok ec →
  get_available_actions ec = [] →
  terminal ec = false →
  ∃ e', step e idx d = Ok (e', (current_state e', reward_of e', false)) ∧
        current_state e' ∈ starting_states e ∧
        random_choice (starting_states e) (recovery_draw d) = Ok (current_state e').
Proof.
  intros Hc Hne Hlt Htr Hav Hterm.
  rewrite step_valid by done. rewrite Htr. simpl.
  destruct (transition_Ok _ _ _ _ _ Htr) as (inv & ns & _ & Hcm).
  apply commit_constructed in Hcm as [_ Hstart].
  unfold settle. rewrite Hav, Hterm. simpl.
  apply constructed_starting in Hc as [Hnil _].
  destruct (random_choice_returns (starting_states e) (recovery_draw d) Hnil)
    as (cs & Hcs & Hin).
  rewrite Hstart, Hcs. simpl.
  exists (with_episode ec cs false (inventory ec)).
  split; [reflexivity|]. simpl. done.
Qed.

Lemma stuck_state_relocates_witness :
  ∃ e', step jail 3 (draws 0 0 0) = Ok (e', (current_state e', reward_of e', false)) ∧
        current_state e' ∈ starting_states jail ∧
        random_choice (starting_states jail) (recovery_draw (draws 0 0 0)) = Ok (current_state e').
Proof.
  apply (stuck_state_relocates jail 3 (draws 0 0 0) (jail_at "pit" ∅)).
  - vm_compute. reflexivity.
  - vm_compute. discriminate.
  - vm_compute. reflexivity.
  - vm_compute. reflexivity.
  - vm_compute. reflexivity.
  - vm_compute. reflexivity.
Defined.

(** Counterexample to C4 as worded: the pit of [jail] is a starting
    state without actions that is not terminal. Jumping from the cell
    commits to the pit, and a recovery draw that picks the pit again leaves
    the engine resting there. *)
Lemma resting_state_without_actions :
  constructed jail = true ∧
  ∃ e' o, step jail 3 (draws 0 0 1) = Ok (e', o) ∧
          current_state e' = "pit" ∧
          get_available_actions e' = [] ∧ terminal e' = false.
Proof.
  split; [reflexivity|].
  exists (jail_at "pit" ∅), ("pit", 0%Z, false).
  split; [vm_compute; reflexivity|]. split; [reflexivity|]. split; reflexivity.
Qed.

(** ** C6: a next state that does not exist *)

(** C6. On a constructed engine, when [step] resolves a valid action whose
    next state id (from [next_state] or from the weighted draw) is not a key
    of the state graph, that id is dropped: the committed state is the
    member of the starting states the fallback draw picks, it is a state of
    the graph, and neither the committed nor the returned [current_state]
    is the missing id. *)
Theorem missing_next_state_falls_back (e : Env) (idx : Z) (d : Draws)
    (inv : gset string) (ns : string) :
  constructed e = true →
  get_available_actions e ≠ [] →
  (idx < Z.of_nat (length (get_available_actions e)))%Z →
  resolve e (get_available_actions e) idx (choices_draw d) = Ok (inv, ns) →
  states e !! ns = None →
  ∃ ec, transition e (get_available_actions e) idx d = Ok ec ∧
        random_choice (starting_states e) (fallback_draw d) = Ok (current_state ec) ∧
        current_state ec ∈ starting_states e ∧
        is_Some (states e !! current_state ec) ∧
        current_state ec ≠ ns ∧
        ∃ e' o, step e idx d = Ok (e', o) ∧
                is_Some (states e !! current_state e') ∧ current_state e' ≠ ns.
Proof.
  intros Hc Hne Hlt Hres Hmiss.
  assert (Hno : has_state e ns = false).
  { unfold has_state, is_state. by rewrite Hmiss. }
  destruct (commit_returns e inv ns (fallback_draw d) Hc) as (cs & st & Hcs & Hst & Hcm).
  destruct (ensure_exists_present e ns (fallback_draw d) Hc)
    as (cs' & Hcs' & _ & [[Hyes _]|(_ & Hin & Hpick)]); [congruence|].
  assert (cs' = cs) as -> by congruence.
  assert (Hcsne : cs ≠ ns) by (intros ->; rewrite Hmiss in Hst; discriminate).
  set (ec := with_episode e cs (default false (st_terminal st)) inv) in *.
  assert (Htr : transition e (get_available_actions e) idx d = Ok ec).
  { unfold transition. rewrite Hres. simpl. exact Hcm. }
  exists ec. split; [done|]. split; [done|]. split; [done|]. split; [by eexists|].
  split; [done|].
  rewrite step_valid by done. rewrite Htr. simpl.
  destruct (settle_returns ec (recovery_draw d)) as [[e' o] Hse]; [done|].
  exists e', o. split; [done|].
  apply settle_Ok in Hse as (_ & _ & _ & _ & _ & [(_ & _ & Hrc)|[-> _]]).
  - apply random_choice_elem in Hrc. simpl in Hrc.
    apply constructed_starting in Hc as [_ Hall].
    specialize (Hall _ Hrc). apply has_state_lookup in Hall.
    split; [done|]. intros Heq. rewrite Heq, Hmiss in Hall. by destruct Hall.
  - simpl. split; [by eexists | done].
Qed.

Lemma missing_next_state_falls_back_witness :
  ∃ ec, transition jail (get_available_actions jail) 2 (draws 0 0 0) = Ok ec ∧
        random_choice (starting_states jail) (fallback_draw (draws 0 0 0))
          = Ok (current_state ec) ∧
        current_state ec ∈ starting_states jail ∧
        is_Some (states jail !! current_state ec) ∧
        current_state ec ≠ "tunnel" ∧
        ∃ e' o, step jail 2 (draws 0 0 0) = Ok (e', o) ∧
                is_Some (states jail !! current_state e') ∧ current_state e' ≠ "tunnel".
Proof.
  apply (missing_next_state_falls_back jail 2 (draws 0 0 0) ∅ "tunnel").
  - vm_compute. reflexivity.
  - vm_compute. discriminate.
  - vm_compute. reflexivity.
  - vm_compute. reflexivity.
  - vm_compute. reflexivity.
Defined.

(** ** C7: construction *)

Lemma filter_is_state_constructed graph (l : list string) :
  forallb (is_state graph) (List.filter (is_state graph) l) = true.
Proof.
  apply forallb_forall. intros s Hs. by apply List.filter_In in Hs as [_ ?].
Qed.

(** C7. Construction raises the configuration error ([ValueError]) exactly
    when no listed starting state is a key of the state graph. When it
    succeeds, the starting states kept are the listed ones found in the
    graph, the initial [current_state] is one of them, the inventory is
    empty and [terminal] is false. (The one other way for construction to
    fail is the size check of the action and observation spaces.) *)
Theorem init_spec (discrete_accepts : nat → bool) (game_data : GameData) (k : nat) :
  let valid := List.filter (is_state (default ∅ (gd_states game_data)))
                           (default [] (gd_starting_states game_data)) in
  (init discrete_accepts game_data k = Raise ValueError ↔ valid = []) ∧
  (∀ x, init discrete_accepts game_data k = Raise x → x = ValueError ∨ x = AssertionError) ∧
  (∀ e, init discrete_accepts game_data k = Ok e →
        starting_states e = valid ∧
        current_state e ∈ valid ∧
        inventory e = ∅ ∧
        terminal e = false ∧
        constructed e = true).
Proof.
  intros valid. unfold init. fold valid.
  destruct (is_empty valid) eqn:Hemp.
  { apply is_empty_nil in Hemp. split; [done|]. split; [|done].
    intros x [= <-]. by left. }
  assert (Hne : valid ≠ []).
  { intros Heq. apply is_empty_nil in Heq. congruence. }
  destruct (random_choice_returns valid k Hne) as (cs & Hcs & Hin).
  rewrite Hcs. simpl.
  destruct (_ && _).
  - split; [done|]. split; [done|]. intros e [= <-]. simpl.
    repeat split; try done.
    unfold constructed. simpl. rewrite Hemp. simpl.
    apply filter_is_state_constructed.
  - split; [split; [discriminate | done]|]. split; [|done].
    intros x [= <-]. by right.
Qed.

Lemma init_spec_witness :
  init (λ n, 0 <? n)%nat jail_doc 0 = Ok jail ∧
  starting_states jail = ["cell"; "pit"] ∧
  current_state jail ∈ ["cell"; "pit"] ∧
  inventory jail = ∅ ∧
  terminal jail = false ∧
  constructed jail = true.
Proof.
  assert (H : init (λ n, 0 <? n)%nat jail_doc 0 = Ok jail) by (vm_compute; reflexivity).
  split; [exact H|].
  exact (proj2 (proj2 (init_spec (λ n, 0 <? n)%nat jail_doc 0)) jail H).
Defined.

(** ** C8: reset *)

Lemma reset_first_draw (e : Env) (k : nat) (more : list nat) :
  constructed e = true →
  ∃ s, random_choice (starting_states e) k = Ok s ∧
       s ∈ starting_states e ∧ has_state e s = true ∧
       reset e k more = Some (Ok (with_episode e s false ∅, s)).
Proof.
  intros [Hne Hall]%constructed_starting.
  destruct (random_choice_returns (starting_states e) k Hne) as (s & Hs & Hin).
  exists s. split; [done|]. split; [done|]. split; [auto|].
  unfold reset. rewrite Hs.
  destruct more; simpl; by rewrite (Hall s Hin).
Qed.

Lemma collect_available_entry inv items action :
  action ∈ collect_available inv items →
  ∃ details, (action, details) ∈ items ∧ unlocked inv details.
Proof.
  rewrite collect_available_filter. intros ([a details] & -> & Hin)%list_elem_of_fmap.
  apply list_elem_of_filter in Hin as [Hu Hin]. eauto.
Qed.

(** C8 (as amended). On a constructed engine [reset] returns on its first
    draw: the state it returns is the new [current_state], a member of the
    starting states and a key of the state graph; afterwards the inventory is
    empty and [terminal] is false, so every action [get_available_actions]
    then returns has an entry whose [requires] is absent or the empty
    string. *)
Theorem reset_spec (e : Env) (k : nat) (more : list nat) :
  constructed e = true →
  ∃ e' s st,
    reset e k more = Some (Ok (e', s)) ∧
    current_state e' = s ∧
    s ∈ starting_states e ∧
    states e !! s = Some st ∧
    states e' = states e ∧
    inventory e' = ∅ ∧
    terminal e' = false ∧
    ∀ a, a ∈ get_available_actions e' →
         ∃ details, (a, details) ∈ actions st ∧
                    (requires details = None ∨ requires details = Some EmptyString).
Proof.
  intros Hc.
  destruct (reset_first_draw e k more Hc) as (s & _ & Hin & Hhas & Hreset).
  apply has_state_lookup in Hhas as [st Hst].
  exists (with_episode e s false ∅), s, st.
  repeat (split; [done|]).
  intros a. unfold get_available_actions. simpl. rewrite Hst.
  intros (details & Hentry & Hu)%collect_available_entry.
  exists details. split; [done|].
  unfold unlocked in Hu. destruct (requires details) as [r|]; [|by left].
  right. destruct Hu as [->|Hr]; [done|]. set_solver.
Qed.

Lemma reset_spec_witness :
  ∃ e' s st,
    reset (jail_at "corridor" {[ "key" ]}) 0 [] = Some (Ok (e', s)) ∧
    current_state e' = s ∧
    s ∈ starting_states (jail_at "corridor" {[ "key" ]}) ∧
    states (jail_at "corridor" {[ "key" ]}) !! s = Some st ∧
    states e' = states (jail_at "corridor" {[ "key" ]}) ∧
    inventory e' = ∅ ∧
    terminal e' = false ∧
    ∀ a, a ∈ get_available_actions e' →
         ∃ details, (a, details) ∈ actions st ∧
                    (requires details = None ∨ requires details = Some EmptyString).
Proof.
  apply (reset_spec (jail_at "corridor" {[ "key" ]}) 0 []).
  vm_compute. reflexivity.
Defined.

(** Counterexample to C8 as worded: right after a reset of [jail]
    into the cell, "hum" is returned, and the one entry of that name has a
    [requires] condition (the empty string). *)
Lemma reset_offers_empty_requirement :
  ∃ e' st,
    reset jail 0 [] = Some (Ok (e', "cell")) ∧
    states jail !! "cell" = Some st ∧
    "hum" ∈ get_available_actions e' ∧
    ∀ details, ("hum", details) ∈ actions st → requires details ≠ None.
Proof.
  eexists _, _. split; [vm_compute; reflexivity|]. split; [reflexivity|].
  split.
  - vm_compute. set_solver.
  - intros details Hin. simpl in Hin.
    repeat (apply elem_of_cons in Hin as [Heq|Hin];
            [try discriminate Heq; by injection Heq as ->|]).
    by apply elem_of_nil in Hin.
Qed.

(** ** The weighted draw *)

Lemma midpoint_between (lo hi : nat) :
  (lo < hi)%nat → (lo ≤ (lo + hi) / 2 < hi)%nat.
Proof.
  intros H. split.
  - apply Nat.div_le_lower_bound; lia.
  - apply Nat.Div0.div_lt_upper_bound; lia.
Qed.

Lemma bisect_loop_round (a : list number) (x : float) (fuel lo hi : nat) :
  bisect_loop (S fuel) a x lo hi =
    if (lo <? hi)%nat then
      if float_lt x (nth ((lo + hi) / 2) a (PyInt 0))
      then bisect_loop fuel a x lo ((lo + hi) / 2)
      else bisect_loop fuel a x ((lo + hi) / 2 + 1) hi
    else lo.
Proof. reflexivity. Qed.

Lemma bisect_loop_bounds (a : list number) (x : float) (fuel lo hi : nat) :
  (lo ≤ hi)%nat → (lo ≤ bisect_loop fuel a x lo hi ≤ hi)%nat.
Proof.
  revert lo hi. induction fuel as [|fuel IH]; intros lo hi Hle; [simpl; lia|].
  rewrite bisect_loop_round.
  destruct (lo <? hi)%nat eqn:Hlt; [|lia].
  apply Nat.ltb_lt in Hlt. pose proof (midpoint_between lo hi Hlt) as Hmid.
  set (mid := ((lo + hi) / 2)%nat) in *. clearbody mid.
  destruct (float_lt _ _).
  - destruct (IH lo mid); lia.
  - destruct (IH (mid + 1)%nat hi); lia.
Qed.

(** *** Exceptions of the arithmetic *)

Lemma int_to_float_Raise (z : Z) (x : exn) :
  int_to_float z = Raise x → x = OverflowError.
Proof.
  unfold int_to_float. destruct (binary_normalize _ _ _ _ _); congruence.
Qed.

Lemma number_to_float_Raise (a : number) (x : exn) :
  number_to_float a = Raise x → x = OverflowError.
Proof. destruct a; simpl; [apply int_to_float_Raise | discriminate]. Qed.

Lemma number_add_Raise (a b : number) (x : exn) :
  number_add a b = Raise x → x = OverflowError.
Proof.
  unfold number_add.
  destruct a as [za|fa], b as [zb|fb]; simpl; try discriminate.
  - destruct (int_to_float za) eqn:H; simpl; [discriminate|].
    intros [= <-]. by eapply int_to_float_Raise.
  - destruct (int_to_float zb) eqn:H; simpl; [discriminate|].
    intros [= <-]. by eapply int_to_float_Raise.
Qed.

Lemma accumulate_from_Raise (acc : number) (weights : list number) (x : exn) :
  accumulate_from acc weights = Raise x → x = OverflowError.
Proof.
  revert acc. induction weights as [|w rest IH]; intros acc; simpl; [discriminate|].
  destruct (number_add acc w) as [acc'|y] eqn:Hadd; simpl.
  - destruct (accumulate_from acc' rest) eqn:Hrest; simpl; [discriminate|].
    intros [= <-]. by eapply IH.
  - intros [= <-]. by eapply number_add_Raise.
Qed.

Lemma accumulate_Raise (weights : list number) (x : exn) :
  accumulate weights = Raise x → x = OverflowError.
Proof.
  destruct weights as [|w rest]; simpl; [discriminate|].
  destruct (accumulate_from w rest) eqn:H; simpl; [discriminate|].
  intros [= <-]. by eapply accumulate_from_Raise.
Qed.

Lemma accumulate_from_length (acc : number) (weights cum : list number) :
  accumulate_from acc weights = Ok cum → length cum = length weights.
Proof.
  revert acc cum. induction weights as [|w rest IH]; intros acc cum; simpl.
  - by intros [= <-].
  - destruct (number_add acc w) as [acc'|]; simpl; [|discriminate].
    destruct (accumulate_from acc' rest) as [tail|] eqn:H; simpl; [|discriminate].
    intros [= <-]. simpl. f_equal. by eapply IH.
Qed.

Lemma accumulate_length (weights cum : list number) :
  accumulate weights = Ok cum → length cum = length weights.
Proof.
  destruct weights as [|w rest]; simpl; [by intros [= <-]|].
  destruct (accumulate_from w rest) as [tail|] eqn:H; simpl; [|discriminate].
  intros [= <-]. simpl. f_equal. by eapply accumulate_from_length.
Qed.

(** *** [random.choices] *)

Lemma py_index_nat {A} (seq : list A) (i : nat) (x : A) :
  seq !! i = Some x → py_index seq (Z.of_nat i) = Ok x.
Proof.
  intros H. unfold py_index.
  destruct (Z.of_nat i <? 0)%Z eqn:Hneg; [apply Z.ltb_lt in Hneg; lia|].
  rewrite Hneg, Nat2Z.id, H. done.
Qed.

Lemma py_index_last_empty {A} : py_index (@nil A) (-1) = Raise IndexError.
Proof. reflexivity. Qed.

Lemma py_index_last_returns {A} (seq : list A) :
  seq ≠ [] → ∃ x, py_index seq (-1) = Ok x ∧ seq !! (length seq - 1)%nat = Some x.
Proof.
  intros Hne. unfold py_index.
  assert (Hlen : (0 < length seq)%nat) by (destruct seq; simpl; [done | lia]).
  replace (-1 <? 0)%Z with true by done.
  destruct (-1 + Z.of_nat (length seq) <? 0)%Z eqn:Hneg; [apply Z.ltb_lt in Hneg; lia|].
  replace (Z.to_nat (-1 + Z.of_nat (length seq))) with (length seq - 1)%nat by lia.
  destruct (seq !! (length seq - 1)%nat) as [x|] eqn:Hx; [eauto|].
  apply lookup_ge_None in Hx. lia.
Qed.

(** [random.choices] raises nothing but these three. *)
Lemma random_choices_Raise {A} (population : list A) (weights : list number)
    (u : float) (x : exn) :
  random_choices population weights u = Raise x →
  x = IndexError ∨ x = ValueError ∨ x = OverflowError.
Proof.
  unfold random_choices.
  destruct (accumulate weights) as [cum|y] eqn:Hacc; simpl.
  2:{ intros [= <-]. right; right. by eapply accumulate_Raise. }
  destruct (negb _); [intros [= <-]; auto|].
  destruct (py_index cum (-1)) as [last|y] eqn:Hlast; simpl.
  2:{ intros [= <-]. left. revert Hlast. unfold py_index.
      destruct (_ <? 0)%Z; [by intros [= <-]|].
      destruct (cum !! _); [discriminate | by intros [= <-]]. }
  destruct (number_to_float last) as [total|y] eqn:Htot; simpl.
  2:{ intros [= <-]. right; right. by eapply number_to_float_Raise. }
  destruct (_ <=? _)%float; [intros [= <-]; auto|].
  destruct (negb _); [intros [= <-]; auto|].
  unfold py_index. destruct (_ <? 0)%Z; [intros [= <-]; auto|].
  destruct (population !! _); [discriminate | intros [= <-]; auto].
Qed.

(** With usable weights [random.choices] returns, whatever the draw: the
    member of the population at the index [bisect] finds for the draw
    scaled by the total. *)
Lemma random_choices_usable {A} (population : list A) (weights : list number) (u : float) :
  length population = length weights →
  weights_usable weights = true →
  ∃ cum total i x,
    accumulate weights = Ok cum ∧
    choices_total weights = Ok total ∧
    (total <=? 0)%float = false ∧
    i = bisect cum (u * total)%float 0 (length weights - 1) ∧
    population !! i = Some x ∧
    random_choices population weights u = Ok x.
Proof.
  intros Hlen. unfold weights_usable, choices_total, random_choices.
  destruct (accumulate weights) as [cum|] eqn:Hacc; simpl; [|discriminate].
  pose proof (accumulate_length _ _ Hacc) as Hcum.
  rewrite Hcum, Hlen, Nat.eqb_refl. simpl.
  destruct (py_index cum (-1)) as [last|] eqn:Hlast; simpl; [|discriminate].
  destruct (number_to_float last) as [total|]; simpl; [|discriminate].
  intros [Hpos Hfin]%andb_prop. apply negb_true_iff in Hpos.
  rewrite Hpos, Hfin. simpl.
  assert (Hn : (0 < length weights)%nat).
  { destruct cum; [discriminate Hlast | simpl in Hcum; lia]. }
  set (i := bisect cum (u * (total + 0))%float 0 (length weights - 1)).
  assert (Hi : (i < length population)%nat).
  { pose proof (bisect_loop_bounds cum (u * (total + 0))%float
                  (length weights - 1 - 0) 0 (length weights - 1) ltac:(lia)) as Hb.
    unfold i, bisect. lia. }
  destruct (lookup_lt_is_Some_2 population i Hi) as [x Hx].
  exists cum, (total + 0)%float, i, x. rewrite (py_index_nat _ _ _ Hx). done.
Qed.

(** With weights that are not usable it raises, whatever the draw: what
    forming the total raised, or [ValueError] for a total that is not above
    zero or not finite. *)
Lemma random_choices_unusable {A} (population : list A) (weights : list number) (u : float) :
  length population = length weights →
  weights_usable weights = false →
  random_choices population weights u =
    Raise (match choices_total weights with
           | Ok _ => ValueError
           | Raise x => x
           end).
Proof.
  intros Hlen. unfold weights_usable, choices_total, random_choices.
  destruct (accumulate weights) as [cum|y] eqn:Hacc; simpl; [|done].
  pose proof (accumulate_length _ _ Hacc) as Hcum.
  rewrite Hcum, Hlen, Nat.eqb_refl. simpl.
  destruct (py_index cum (-1)) as [last|y] eqn:Hlast; simpl; [|done].
  destruct (number_to_float last) as [total|y]; simpl; [|done].
  destruct (_ <=? _)%float; simpl; [done|].
  by intros ->.
Qed.

(** Some values of the library function: a total that overflows to
    infinity, an int too large for a float, a product that rounds up to
    the total, running sums that are not sorted, and the plain case. *)
Lemma random_choices_values :
  random_choices ["a"; "b"]
    [PyFloat 0x1.1ccf385ebc8ap+1023; PyFloat 0x1.1ccf385ebc8ap+1023] 0.5
    = Raise ValueError ∧
  random_choices ["a"; "b"] [PyInt (10 ^ 400); PyInt 1] 0.5 = Raise OverflowError ∧
  random_choices ["a"; "b"] [PyFloat 0x1p-1074; PyFloat 0] 0.75 = Ok "b" ∧
  random_choices ["a"; "b"; "c"; "d"]
    [PyFloat 1e16; PyFloat 3; PyFloat (-1e16); PyFloat (-3)] 0.5 = Ok "a" ∧
  random_choices ["a"] [PyInt (- 10 ^ 400)] 0.5 = Raise OverflowError ∧
  random_choices ["a"; "b"] [PyInt 3; PyInt 1] 0.5 = Ok "a" ∧
  random_choices ["a"; "b"] [PyInt 3; PyInt 1] 0.75 = Ok "b" ∧
  random_choices ["a"; "b"] [PyInt 0; PyInt 0] 0.5 = Raise ValueError ∧
  random_choices (@nil string) [] 0.5 = Raise IndexError.
Proof. repeat split; vm_compute; reflexivity. Qed.
(** ** C9: weighted branching *)

(** *** Running sums of integer weights *)






(** *** The comparison of a float with an int *)




(** *** The index found among integer running sums *)

Section BisectInts.

Variable cum : list number.
Variable sums : nat → Z.
Variable x : float.
Variable top : nat.
Hypothesis cum_sums : ∀ j, (j < top)%nat → nth j cum (PyInt 0) = PyInt (sums j).
Hypothesis sums_mono : ∀ i j, (i ≤ j)%nat → (j < top)%nat → (sums i ≤ sums j)%Z.



End BisectInts.




(** ** C5: what [step] raises *)

Lemma selected_action_resolve (e : Env) (idx : Z) (u : float) :
  (0 ≤ idx < Z.of_nat (length (get_available_actions e)))%Z →
  ∃ action_data,
    selected_action e idx = Some action_data ∧
    resolve e (get_available_actions e) idx u =
      determine_next_state e action_data u ≫= λ new_state,
        Ok (match grants action_data with
            | Some item => {[ item ]} ∪ inventory e
            | None => inventory e
            end, new_state).
Proof.
  intros Hidx.
  destruct (lookup_lt_is_Some_2 (get_available_actions e) (Z.to_nat idx)) as [name Hname];
    [lia|].
  pose proof (list_elem_of_lookup_2 _ _ _ Hname) as Hin.
  assert (Hpy : py_index (get_available_actions e) idx = Ok name).
  { rewrite <- (Z2Nat.id idx) by lia. by apply py_index_nat. }
  unfold selected_action, resolve. rewrite Hname, Hpy. simpl.
  unfold get_available_actions in Hin.
  destruct (states e !! current_state e) as [st|] eqn:Hst; [|by apply elem_of_nil in Hin].
  simpl. apply collect_available_key in Hin as [action_data Had].
  rewrite Had. simpl. eauto.
Qed.

(** C5 (as amended). On a constructed engine, for every engine state, every
    non-negative action index and all draws: [step] returns a
    [(state, reward, terminal)] result without raising when the selected
    action (if the index selects one) has no [probabilities] mapping or one
    whose weights are usable, that is, whose running sums can be formed
    and whose last running sum, taken to a float, is above zero and finite.
    When the index selects an action whose weights are not usable, [step]
    raises what [random.choices] raises: [IndexError] for an empty mapping,
    [OverflowError] when an int is too large for a float, [ValueError] for
    a total that is not above zero or not finite. *)
Theorem step_returns_or_raises (e : Env) (idx : Z) (d : Draws) :
  constructed e = true →
  (0 ≤ idx)%Z →
  (draw_defined e idx = true → returns (step e idx d)) ∧
  (∀ action_data probs,
     selected_action e idx = Some action_data →
     probabilities action_data = Some probs →
     weights_usable (probs.*2) = false →
     step e idx d = Raise (match choices_total (probs.*2) with
                           | Ok _ => ValueError
                           | Raise x => x
                           end) ∧
     (probs = [] → step e idx d = Raise IndexError)).
Proof.
  intros Hc Hidx.
  destruct (decide (get_available_actions e = []
                    ∨ (Z.of_nat (length (get_available_actions e)) ≤ idx)%Z)) as [Hpen|Hval].
  { split.
    - intros _. rewrite step_penalty by done. unfold returns, penalty. eauto.
    - intros action_data probs Hsel. exfalso.
      unfold selected_action in Hsel.
      destruct (get_available_actions e !! Z.to_nat idx) as [name|] eqn:Hname;
        [|discriminate].
      apply lookup_lt_Some in Hname. destruct Hpen as [Hnil|Hge]; [|lia].
      rewrite Hnil in Hname. simpl in Hname. lia. }
  assert (Hne : get_available_actions e ≠ []) by tauto.
  assert (Hlt : (idx < Z.of_nat (length (get_available_actions e)))%Z) by lia.
  rewrite step_valid by done. unfold transition.
  destruct (selected_action_resolve e idx (choices_draw d) ltac:(lia))
    as (action_data & Hsel & ->).
  unfold draw_defined. rewrite Hsel.
  unfold determine_next_state.
  destruct (probabilities action_data) as [probs|] eqn:Hprobs.
  - assert (Hlen : length (probs.*1) = length (probs.*2)) by (by rewrite !length_fmap).
    split.
    + intros Huse.
      destruct (random_choices_usable (probs.*1) (probs.*2) (choices_draw d) Hlen Huse)
        as (_ & _ & _ & ns & _ & _ & _ & _ & _ & ->). simpl.
      destruct (commit_returns e
                  (match grants action_data with
                   | Some item => {[ item ]} ∪ inventory e
                   | None => inventory e
                   end) ns (fallback_draw d) Hc) as (cs & st & _ & _ & ->).
      simpl. by apply settle_returns.
    + intros ad' probs' [= <-] Hp Huse.
      assert (probs' = probs) as -> by congruence.
      rewrite (random_choices_unusable _ _ (choices_draw d) Hlen Huse).
      split; [done|]. by intros ->.
  - split; [|intros ad' probs' [= <-] Hp; congruence].
    intros _. simpl.
    destruct (commit_returns e
                (match grants action_data with
                 | Some item => {[ item ]} ∪ inventory e
                 | None => inventory e
                 end) (default (current_state e) (next_state action_data))
                (fallback_draw d) Hc) as (cs & st & _ & _ & ->).
    simpl. by apply settle_returns.
Qed.

Lemma step_returns_or_raises_witness :
  (draw_defined (jail_at "corridor" ∅) 0 = true →
   returns (step (jail_at "corridor" ∅) 0 (draws 0.5 0 0))) ∧
  (∀ action_data probs,
     selected_action (jail_at "corridor" ∅) 0 = Some action_data →
     probabilities action_data = Some probs →
     weights_usable (probs.*2) = false →
     step (jail_at "corridor" ∅) 0 (draws 0.5 0 0)
       = Raise (match choices_total (probs.*2) with
                | Ok _ => ValueError
                | Raise x => x
                end) ∧
     (probs = [] → step (jail_at "corridor" ∅) 0 (draws 0.5 0 0) = Raise IndexError)).
Proof.
  apply (step_returns_or_raises (jail_at "corridor" ∅) 0 (draws 0.5 0 0)).
  - vm_compute. reflexivity.
  - lia.
Defined.

(** Counterexample to C5 as worded: in the cell of [jail] the
    action "pray" has an empty [probabilities] mapping and "bribe" one whose
    weights are all zero; taking either raises. *)
Lemma step_raises_on_unusable_weights :
  constructed jail = true ∧
  get_available_actions jail = ["search"; "hum"; "dig"; "jump"; "pray"; "bribe"] ∧
  step jail 4 (draws 0 0 0) = Raise IndexError ∧
  step jail 5 (draws 0 0 0) = Raise ValueError.
Proof. repeat split; vm_compute; reflexivity. Qed.

(** * Further properties of the engine *)

(** ** The ways [step] returns *)

Lemma step_Ok_cases (e : Env) (idx : Z) (d : Draws) (e' : Env) (o : Observation) :
  step e idx d = Ok (e', o) →
  ((get_available_actions e = [] ∨ (Z.of_nat (length (get_available_actions e)) ≤ idx)%Z)
   ∧ e' = e ∧ o = (current_state e, (-1)%Z, true))
  ∨ (get_available_actions e ≠ [] ∧
     (idx < Z.of_nat (length (get_available_actions e)))%Z ∧
     ∃ inv ns ec,
       resolve e (get_available_actions e) idx (choices_draw d) = Ok (inv, ns) ∧
       commit e inv ns (fallback_draw d) = Ok ec ∧
       settle ec (recovery_draw d) = Ok (e', o)).
Proof.
  intros Hstep.
  destruct (decide (get_available_actions e = []
                    ∨ (Z.of_nat (length (get_available_actions e)) ≤ idx)%Z)) as [Hpen|Hval].
  - left. rewrite step_penalty in Hstep by done. unfold penalty in Hstep.
    injection Hstep as <- <-. done.
  - right. assert (Hne : get_available_actions e ≠ []) by tauto.
    assert (Hlt : (idx < Z.of_nat (length (get_available_actions e)))%Z) by lia.
    rewrite step_valid in Hstep by done.
    apply bind_Ok in Hstep as (ec & Htr & Hse).
    apply transition_Ok in Htr as (inv & ns & Hres & Hcm). eauto 10.
Qed.

Lemma py_index_elem {A} (seq : list A) (i : Z) (x : A) :
  py_index seq i = Ok x → x ∈ seq.
Proof.
  unfold py_index. destruct (_ <? 0)%Z; [discriminate|].
  destruct (seq !! _) eqn:Hl; [|discriminate].
  intros [= <-]. eapply list_elem_of_lookup_2, Hl.
Qed.

Lemma dict_get_elem {V} (d : list (string * V)) (key : string) (v : V) :
  dict_get d key = Some v → (key, v) ∈ d.
Proof.
  induction d as [|[k w] d IH]; simpl; [discriminate|].
  destruct (decide (k = key)) as [->|Hne].
  - intros [= ->]. apply elem_of_cons. by left.
  - intros H. apply elem_of_cons. right. auto.
Qed.

Lemma resolve_Ok (e : Env) av idx u inv ns :
  resolve e av idx u = Ok (inv, ns) →
  ∃ name st action_data,
    py_index av idx = Ok name ∧
    states e !! current_state e = Some st ∧
    dict_get (actions st) name = Some action_data ∧
    inv = match grants action_data with
          | Some item => {[ item ]} ∪ inventory e
          | None => inventory e
          end ∧
    determine_next_state e action_data u = Ok ns.
Proof.
  unfold resolve. intros (name & Hname & H)%bind_Ok.
  apply bind_Ok in H as (st & Hst & H).
  apply bind_Ok in H as (action_data & Had & H).
  apply bind_Ok in H as (ns' & Hns & [= <- <-]).
  destruct (states e !! current_state e) as [st'|] eqn:Hl; simpl in Hst; [|discriminate].
  injection Hst as ->.
  destruct (dict_get (actions st) name) as [ad|] eqn:Hd; simpl in Had; [|discriminate].
  injection Had as ->. eauto 10.
Qed.

(** ** What [step] keeps *)

(** X1. [step] never touches the configuration, and keeps a constructed
    engine whose current state is a state of the graph in that condition:
    after any call that returns, the state graph and the starting states
    are the same objects, and [current_state] is again a key of the
    graph. *)
Theorem step_keeps_engine_valid (e : Env) (idx : Z) (d : Draws) (e' : Env) (o : Observation) :
  constructed e = true →
  has_state e (current_state e) = true →
  step e idx d = Ok (e', o) →
  states e' = states e ∧
  starting_states e' = starting_states e ∧
  constructed e' = true ∧
  has_state e' (current_state e') = true.
Proof.
  intros Hc Hcur Hstep.
  apply step_Ok_cases in Hstep
    as [(_ & -> & _)|(_ & _ & inv & ns & ec & _ & Hcm & Hse)]; [done|].
  apply commit_Ok in Hcm as (cs & st & _ & Hst & ->).
  apply settle_Ok in Hse as (_ & Hstates & Hstart & _ & _ & Hcase).
  simpl in *. split; [done|]. split; [done|].
  split; [unfold constructed, has_state; by rewrite Hstates, Hstart|].
  unfold has_state. rewrite Hstates.
  destruct Hcase as [(_ & _ & Hpick)|[-> _]].
  - apply random_choice_elem in Hpick.
    apply constructed_starting in Hc as [_ Hall]. by apply Hall.
  - simpl. unfold is_state. by rewrite Hst.
Qed.

Lemma step_keeps_engine_valid_witness :
  states (jail_at "corridor" {[ "key" ]}) = states (jail_at "cell" {[ "key" ]}) ∧
  starting_states (jail_at "corridor" {[ "key" ]}) = starting_states (jail_at "cell" {[ "key" ]}) ∧
  constructed (jail_at "corridor" {[ "key" ]}) = true ∧
  has_state (jail_at "corridor" {[ "key" ]})
    (current_state (jail_at "corridor" {[ "key" ]})) = true.
Proof.
  apply (step_keeps_engine_valid (jail_at "cell" {[ "key" ]}) 1 (draws 0 0 0)
           (jail_at "corridor" {[ "key" ]}) ("corridor", 0%Z, false)).
  - vm_compute. reflexivity.
  - vm_compute. reflexivity.
  - vm_compute. reflexivity.
Defined.

(** X2. Within [step] the inventory only grows, and by at most the grant of
    an available action of the current state: every item held before is
    held after, and an item held after a returning call was held before or
    is the [grants] of an action that was available. *)
Theorem step_inventory_grows (e : Env) (idx : Z) (d : Draws) (e' : Env) (o : Observation) :
  step e idx d = Ok (e', o) →
  inventory e ⊆ inventory e' ∧
  ∀ item, item ∈ inventory e' →
    item ∈ inventory e ∨
    ∃ st name action_data,
      states e !! current_state e = Some st ∧
      name ∈ get_available_actions e ∧
      (name, action_data) ∈ actions st ∧
      grants action_data = Some item.
Proof.
  intros Hstep.
  apply step_Ok_cases in Hstep
    as [(_ & -> & _)|(_ & _ & inv & ns & ec & Hres & Hcm & Hse)]; [by auto|].
  apply resolve_Ok in Hres as (name & st & ad & Hname & Hst & Had & Hinv & _).
  apply commit_Ok in Hcm as (cs & st' & _ & _ & ->).
  destruct (settle_Ok _ _ _ _ Hse) as (_ & _ & _ & _ & Hinv' & _). simpl in Hinv'.
  rewrite Hinv'. subst inv.
  destruct (grants ad) as [g|] eqn:Hg; [|by auto].
  split; [apply union_subseteq_r|].
  intros item [->%elem_of_singleton|Hin]%elem_of_union; [|by left].
  right. exists st, name, ad.
  split; [done|]. split; [by eapply py_index_elem|].
  split; [by apply dict_get_elem | done].
Qed.

Lemma step_inventory_grows_witness :
  inventory jail ⊆ inventory (jail_at "cell" ({[ "key" ]} ∪ ∅)) ∧
  ∀ item, item ∈ inventory (jail_at "cell" ({[ "key" ]} ∪ ∅)) →
    item ∈ inventory jail ∨
    ∃ st name action_data,
      states jail !! current_state jail = Some st ∧
      name ∈ get_available_actions jail ∧
      (name, action_data) ∈ actions st ∧
      grants action_data = Some item.
Proof.
  apply (step_inventory_grows jail 0 (draws 0 0 0)
           (jail_at "cell" ({[ "key" ]} ∪ ∅)) ("cell", 0%Z, false)).
  reflexivity.
Defined.

(** X3. Gaining items never hides an action: in one state, the actions
    available under an inventory are, in order, among those available
    under any larger inventory. *)
Theorem available_actions_monotone (e : Env) (inv inv' : gset string) :
  inv ⊆ inv' →
  get_available_actions (with_episode e (current_state e) (terminal e) inv)
    `sublist_of`
  get_available_actions (with_episode e (current_state e) (terminal e) inv').
Proof.
  intros Hsub. unfold get_available_actions. simpl.
  destruct (states e !! current_state e) as [st|]; [|done].
  induction (actions st) as [|[name details] rest IH]; simpl; [done|].
  destruct (requirement_met inv (requires details)) eqn:Hm.
  - assert (requirement_met inv' (requires details) = true) as ->.
    { unfold requirement_met in *. destruct (requires details) as [r|]; [|done].
      apply orb_true_iff in Hm as [Hm|Hm]; apply orb_true_iff; [by left|right].
      apply bool_decide_eq_true in Hm. apply bool_decide_eq_true. set_solver. }
    by apply sublist_skip.
  - destruct (requirement_met inv' (requires details)); [by apply sublist_cons | done].
Qed.

Lemma available_actions_monotone_witness :
  get_available_actions (with_episode jail (current_state jail) (terminal jail) ∅)
    `sublist_of`
  get_available_actions (with_episode jail (current_state jail) (terminal jail) {[ "key" ]}).
Proof.
  apply (available_actions_monotone jail ∅ {[ "key" ]}).
  apply empty_subseteq.
Defined.

(** ** Indexes below zero *)

Lemma py_index_from_end {A} (seq : list A) (i : Z) :
  (- Z.of_nat (length seq) ≤ i < 0)%Z →
  py_index seq i = py_index seq (i + Z.of_nat (length seq)).
Proof.
  intros Hi. unfold py_index. cbv zeta.
  assert (H1 : (i <? 0)%Z = true) by (apply Z.ltb_lt; lia).
  assert (H2 : (i + Z.of_nat (length seq) <? 0)%Z = false) by (apply Z.ltb_ge; lia).
  by rewrite H1, !H2.
Qed.

Lemma py_index_too_low {A} (seq : list A) (i : Z) :
  (i < - Z.of_nat (length seq))%Z → py_index seq i = Raise IndexError.
Proof.
  intros Hi. unfold py_index. cbv zeta.
  assert (H1 : (i <? 0)%Z = true) by (apply Z.ltb_lt; lia).
  assert (H2 : (i + Z.of_nat (length seq) <? 0)%Z = true) by (apply Z.ltb_lt; lia).
  by rewrite H1, H2.
Qed.

(** X4. [step] reads a negative index from the end of the available
    actions: with [n] actions available, an index [i] of [-n, 0) does
    exactly what the index [i + n] does, and an index below [-n] raises
    [IndexError] when there is an action available. *)
Theorem negative_index_counts_from_end (e : Env) (idx : Z) (d : Draws) :
  ((- Z.of_nat (length (get_available_actions e)) ≤ idx < 0)%Z →
   step e idx d = step e (idx + Z.of_nat (length (get_available_actions e))) d) ∧
  (get_available_actions e ≠ [] →
   (idx < - Z.of_nat (length (get_available_actions e)))%Z →
   step e idx d = Raise IndexError).
Proof.
  split.
  - intros Hi.
    assert (Hne : get_available_actions e ≠ []).
    { intros Heq. rewrite Heq in Hi. simpl in Hi. lia. }
    rewrite !step_valid by (done || lia).
    unfold transition, resolve. by rewrite py_index_from_end.
  - intros Hne Hi. rewrite step_valid by (done || lia).
    unfold transition, resolve. by rewrite py_index_too_low.
Qed.

Lemma negative_index_counts_from_end_witness :
  step jail (-6) (draws 0 0 0) = step jail (-6 + 6) (draws 0 0 0).
Proof.
  apply (proj1 (negative_index_counts_from_end jail (-6) (draws 0 0 0))).
  vm_compute. split; [discriminate | reflexivity].
Defined.

(** ** Actions without a draw *)

(** X5. An action without [probabilities] takes the engine, whatever the
    draws, to its [next_state] (to the current state when it names none)
    with its grant added to the inventory, provided that state is in the
    graph and is terminal or has an action available under the new
    inventory; the triple returned is that state, its reward and its
    terminal flag. *)
Theorem deterministic_action (e : Env) (idx : Z) (d : Draws)
    (action_data : ActionDef) (st' : StateDef) :
  (0 ≤ idx)%Z →
  selected_action e idx = Some action_data →
  probabilities action_data = None →
  states e !! default (current_state e) (next_state action_data) = Some st' →
  let ec := with_episode e (default (current_state e) (next_state action_data))
              (default false (st_terminal st'))
              (match grants action_data with
               | Some item => {[ item ]} ∪ inventory e
               | None => inventory e
               end) in
  get_available_actions ec ≠ [] ∨ terminal ec = true →
  step e idx d = Ok (ec, (current_state ec, reward_of ec, terminal ec)).
Proof.
  intros Hidx Hsel Hprob Hst' ec Hrest.
  assert (Hlt : (idx < Z.of_nat (length (get_available_actions e)))%Z).
  { unfold selected_action in Hsel.
    destruct (get_available_actions e !! Z.to_nat idx) eqn:Hl; [|discriminate].
    apply lookup_lt_Some in Hl. lia. }
  assert (Hne : get_available_actions e ≠ []).
  { intros Heq. rewrite Heq in Hlt. simpl in Hlt. lia. }
  rewrite step_valid by done. unfold transition.
  destruct (selected_action_resolve e idx (choices_draw d) ltac:(lia))
    as (ad & Hsel' & ->).
  assert (ad = action_data) as -> by congruence.
  unfold determine_next_state. rewrite Hprob. simpl.
  unfold commit, ensure_exists, has_state, is_state. rewrite Hst'. simpl.
  rewrite Hst'. simpl. fold ec.
  unfold settle.
  destruct (is_empty (get_available_actions ec) && negb (terminal ec)) eqn:Hc; [|done].
  exfalso. apply andb_prop in Hc as [Hc1%is_empty_nil Hc2%negb_true_iff].
  destruct Hrest; congruence.
Qed.

Lemma deterministic_action_witness :
  step (jail_at "cell" {[ "key" ]}) 1 (draws 0 0 0) =
    Ok (with_episode (jail_at "cell" {[ "key" ]}) "corridor" false {[ "key" ]},
        ("corridor", 0%Z, false)).
Proof.
  assert (H : get_available_actions
                (with_episode (jail_at "cell" {[ "key" ]}) "corridor" false {[ "key" ]}) ≠ []
              ∨ false = true) by (left; vm_compute; discriminate).
  exact (deterministic_action (jail_at "cell" {[ "key" ]}) 1 (draws 0 0 0)
           (action (Some "key") None (Some "corridor") None)
           (state None [("run", run)])
           ltac:(lia) eq_refl eq_refl eq_refl H).
Defined.

(** ** The triple returned *)

(** X6. Whatever the path, the reward [step] returns is [-1], [0] or [1];
    it is [1] only for "escape_success", it is [0] exactly when the state
    returned is not "escape_success" and the terminal flag returned is
    false, and a reward of [-1] always comes with a true terminal flag. *)
Theorem step_reward_and_flag (e : Env) (idx : Z) (d : Draws) (e' : Env)
    (s : string) (r : Z) (t : bool) :
  step e idx d = Ok (e', (s, r, t)) →
  (r = (-1)%Z ∨ r = 0%Z ∨ r = 1%Z) ∧
  (r = 1%Z → s = "escape_success") ∧
  (r = 0%Z ↔ s ≠ "escape_success" ∧ t = false) ∧
  (r = (-1)%Z → t = true).
Proof.
  intros Hstep.
  apply step_Ok_cases in Hstep
    as [(_ & _ & [= -> -> ->])|(_ & _ & inv & ns & ec & _ & _ & Hse)].
  { repeat split; try done; auto. intros [_ ?]; done. }
  apply settle_Ok in Hse as ([= -> -> ->] & _).
  unfold reward_of.
  destruct (decide (current_state e' = "escape_success")) as [Heq|Hneq];
    destruct (terminal e'); repeat split; try done; auto; try tauto.
  all: intros [? ?]; done.
Qed.

Lemma step_reward_and_flag_witness :
  (0%Z = (-1)%Z ∨ 0%Z = 0%Z ∨ 0%Z = 1%Z) ∧
  (0%Z = 1%Z → "cell" = "escape_success") ∧
  (0%Z = 0%Z ↔ "cell" ≠ "escape_success" ∧ false = false) ∧
  (0%Z = (-1)%Z → false = true).
Proof.
  apply (step_reward_and_flag jail 0 (draws 0 0 0)
           (jail_at "cell" ({[ "key" ]} ∪ ∅)) "cell" 0%Z false).
  reflexivity.
Defined.

(** X8. [step] does not consult the stored terminal flag: from two engines
    that differ only in that flag, it raises the same exception or returns
    the same triple and leaves the same current state and inventory. An
    episode that has ended can be stepped on. *)
Theorem step_ignores_stored_flag (e : Env) (cs : string) (inv : gset string)
    (t t' : bool) (idx : Z) (d : Draws) :
  match step (with_episode e cs t inv) idx d, step (with_episode e cs t' inv) idx d with
  | Ok (e1, o1), Ok (e2, o2) =>
      o1 = o2 ∧ current_state e1 = current_state e2 ∧ inventory e1 = inventory e2
  | Raise x, Raise y => x = y
  | _, _ => False
  end.
Proof.
  unfold step.
  change (get_available_actions (with_episode e cs t' inv))
    with (get_available_actions (with_episode e cs t inv)).
  destruct (is_empty _); [done|].
  destruct (_ <=? _)%Z; [done|].
  change (transition (with_episode e cs t' inv))
    with (transition (with_episode e cs t inv)).
  destruct (_ ≫= _) as [[e1 o1]|x]; done.
Qed.

(** ** [reset] on any engine *)

Lemma reset_loop_Ok (e : Env) (cs : string) (more : list nat) (s : string) :
  reset_loop e cs more = Some (Ok s) →
  has_state e s = true ∧ (cs ∈ starting_states e → s ∈ starting_states e).
Proof.
  revert cs. induction more as [|k more IH]; intros cs; simpl.
  - destruct (has_state e cs) eqn:Hcs; [|discriminate]. intros [= <-]. done.
  - destruct (has_state e cs) eqn:Hcs; [intros [= <-]; done|].
    destruct (random_choice (starting_states e) k) as [cs'|x] eqn:Hpick; [|discriminate].
    intros H. apply IH in H as [Hs Hin]. split; [done|]. intros _.
    apply Hin. by eapply random_choice_elem.
Qed.

(** X7. Whatever the engine holds (also starting states that are not in the
    graph), a [reset] that returns has cleared the episode and put the
    engine on a starting state that is a key of the graph, the state it
    returns; the graph and the starting states are untouched. *)
Theorem reset_returns_a_state (e : Env) (k : nat) (more : list nat) (e' : Env) (s : string) :
  reset e k more = Some (Ok (e', s)) →
  has_state e s = true ∧
  s ∈ starting_states e ∧
  e' = with_episode e s false ∅.
Proof.
  unfold reset.
  destruct (random_choice (starting_states e) k) as [cs|x] eqn:Hpick; [|discriminate].
  destruct (reset_loop e cs more) as [[s'|x]|] eqn:Hloop; try discriminate.
  intros [= <- <-].
  apply reset_loop_Ok in Hloop as [Hs Hin].
  split; [done|]. split; [|done]. apply Hin. by eapply random_choice_elem.
Qed.

Lemma reset_returns_a_state_witness :
  has_state (with_episode jail "cell" false ∅) "pit" = true ∧
  "pit" ∈ starting_states (with_episode jail "cell" false ∅) ∧
  with_episode jail "pit" false ∅ =
    with_episode (with_episode jail "cell" false ∅) "pit" false ∅.
Proof.
  apply (reset_returns_a_state (with_episode jail "cell" false ∅) 1 []
           (with_episode jail "pit" false ∅) "pit").
  reflexivity.
Defined.

(** ** [step] and [step_method] *)

(** The engine [step] returns and the one [step_method] leaves coincide,
    and so do the triples and the exceptions. *)

Ltac step_method_tail :=
  destruct (is_empty _ && negb _); simpl; [|done];
  destruct (random_choice _ _); done.

Ltac step_method_commit e d :=
  let Hns := fresh "Hns" in
  destruct (is_state (states e) _) as [|] eqn:Hns; simpl;
  [ unfold is_state in Hns; destruct (states e !! _); [|done]; simpl;
    step_method_tail
  | destruct (random_choice (starting_states e) (fallback_draw d)) as [cs|?];
    simpl; [|done];
    destruct (states e !! cs); simpl; [|done];
    step_method_tail ].

Lemma step_method_step (e : Env) (idx : Z) (d : Draws) :
  match step_method idx d e with
  | (e', Ok o) => step e idx d = Ok (e', o)
  | (_, Raise x) => step e idx d = Raise x
  end.
Proof.
  unfold step_method, finish_method, step, penalty, transition, resolve, commit, ensure_exists,
    determine_next_state, settle, has_state.
  unfold mbind, method_bind, mret, method_ret, attr, try_call,
    set_current_state, set_terminal, inventory_add.
  destruct (is_empty (get_available_actions e)); [done|].
  destruct (_ <=? _)%Z; [done|].
  destruct (py_index _ _) as [name|x]; simpl; [|done].
  destruct (states e !! current_state e) as [st|]; simpl; [|done].
  destruct (dict_get (actions st) name) as [ad|]; simpl; [|done].
  destruct (grants ad) as [item|]; simpl;
    (destruct (probabilities ad) as [probs|]; simpl;
     [destruct (random_choices _ _ _) as [ns|x]; simpl; [|done]|];
     step_method_commit e d).
Qed.

(** ** What a raise of [step] leaves behind *)

Lemma py_index_Raise {A} (seq : list A) (i : Z) (x : exn) :
  py_index seq i = Raise x → x = IndexError.
Proof.
  unfold py_index. destruct (_ <? 0)%Z; [by intros [= <-]|].
  destruct (seq !! _); [discriminate | by intros [= <-]].
Qed.

Lemma finish_method_returns (e : Env) (ns : string) (d : Draws) :
  constructed e = true →
  ∃ e' o, finish_method ns d e = (e', Ok o).
Proof.
  intros [Hne Hall]%constructed_starting.
  unfold finish_method.
  unfold mbind, method_bind, mret, method_ret, attr, try_call,
    set_current_state, set_terminal.
  assert (Hpick : ∀ k, ∃ cs st, random_choice (starting_states e) k = Ok cs ∧
                                states e !! cs = Some st).
  { intros k. destruct (random_choice_returns (starting_states e) k Hne) as (cs & Hcs & Hin).
    apply Hall, has_state_lookup in Hin as [st Hst]. eauto. }
  destruct (is_state (states e) ns) eqn:Hns; simpl.
  - unfold is_state in Hns. destruct (states e !! ns) as [st|]; [|done]. simpl.
    destruct (is_empty _ && negb _); simpl; [|eauto].
    destruct (Hpick (recovery_draw d)) as (cs & _ & -> & _). simpl. eauto.
  - destruct (Hpick (fallback_draw d)) as (cs & st & -> & Hst). simpl.
    rewrite Hst. simpl.
    destruct (is_empty _ && negb _); simpl; [|eauto].
    destruct (Hpick (recovery_draw d)) as (cs' & _ & -> & _). simpl. eauto.
Qed.

Lemma step_method_Raise (e : Env) (idx : Z) (d : Draws) (e' : Env) (x : exn) :
  constructed e = true →
  step_method idx d e = (e', Raise x) →
  (e' = e ∧ x = IndexError ∧ py_index (get_available_actions e) idx = Raise IndexError)
  ∨ ∃ st name action_data probs,
      states e !! current_state e = Some st ∧
      py_index (get_available_actions e) idx = Ok name ∧
      dict_get (actions st) name = Some action_data ∧
      probabilities action_data = Some probs ∧
      random_choices (probs.*1) (probs.*2) (choices_draw d) = Raise x ∧
      e' = match grants action_data with
           | Some item => with_episode e (current_state e) (terminal e)
                            ({[ item ]} ∪ inventory e)
           | None => e
           end.
Proof.
  intros Hc. unfold step_method.
  unfold mbind at 1, method_bind at 1, attr at 1.
  destruct (is_empty (get_available_actions e)) eqn:Hemp; [discriminate|].
  destruct (_ <=? _)%Z; [discriminate|].
  unfold mbind at 1, method_bind at 1, try_call at 1.
  destruct (py_index (get_available_actions e) idx) as [name|x0] eqn:Hpy.
  2:{ intros [= <- <-]. left. apply py_index_Raise in Hpy as ->. done. }
  unfold mbind at 1, method_bind at 1, attr at 1.
  unfold mbind at 1, method_bind at 1, attr at 1.
  unfold mbind at 1, method_bind at 1, try_call at 1.
  pose proof (py_index_elem _ _ _ Hpy) as Hin.
  unfold get_available_actions in Hin.
  destruct (states e !! current_state e) as [st|] eqn:Hst;
    [|by apply elem_of_nil in Hin].
  apply collect_available_key in Hin as [ad Had]. simpl.
  unfold mbind at 1, method_bind at 1, try_call at 1. rewrite Had. simpl.
  intros H. right. exists st, name, ad.
  unfold mbind at 1, method_bind at 1 in H.
  destruct (grants ad) as [item|] eqn:Hg.
  - unfold inventory_add at 1 in H.
    unfold mbind at 1, method_bind at 1 in H.
    destruct (probabilities ad) as [probs|] eqn:Hp.
    + unfold try_call at 1 in H.
      destruct (random_choices _ _ _) as [ns|x0] eqn:Hrc.
      * destruct (finish_method_returns
                    (with_episode e (current_state e) (terminal e) ({[item]} ∪ inventory e))
                    ns d Hc) as (e1 & o & Hfin).
        rewrite Hfin in H. discriminate.
      * injection H as <- <-. exists probs. done.
    + unfold mret at 1, method_ret at 1 in H.
      destruct (finish_method_returns
                  (with_episode e (current_state e) (terminal e) ({[item]} ∪ inventory e))
                  (default (current_state e) (next_state ad)) d Hc) as (e1 & o & Hfin).
      rewrite Hfin in H. discriminate.
  - unfold mret at 1, method_ret at 1 in H.
    unfold mbind at 1, method_bind at 1 in H.
    destruct (probabilities ad) as [probs|] eqn:Hp.
    + unfold try_call at 1 in H.
      destruct (random_choices _ _ _) as [ns|x0] eqn:Hrc.
      * destruct (finish_method_returns e ns d Hc) as (e1 & o & Hfin).
        rewrite Hfin in H. discriminate.
      * injection H as <- <-. exists probs. done.
    + unfold mret at 1, method_ret at 1 in H.
      destruct (finish_method_returns e
                  (default (current_state e) (next_state ad)) d Hc) as (e1 & o & Hfin).
      rewrite Hfin in H. discriminate.
Qed.

(** X10. On a constructed engine a [step] that raises leaves the engine
    where it was: same graph, same starting states, same current state,
    same terminal flag. The exception is [IndexError], [ValueError] or
    [OverflowError], and the inventory is as before or has gained the item
    the chosen action grants: the grant (line 72) precedes the draw that
    raises (line 78). *)
Theorem step_raise_keeps_position (e : Env) (idx : Z) (d : Draws) (e' : Env) (x : exn) :
  constructed e = true →
  step_method idx d e = (e', Raise x) →
  (x = IndexError ∨ x = ValueError ∨ x = OverflowError) ∧
  states e' = states e ∧
  starting_states e' = starting_states e ∧
  current_state e' = current_state e ∧
  terminal e' = terminal e ∧
  (inventory e' = inventory e ∨
   ∃ st name action_data item,
     states e !! current_state e = Some st ∧
     name ∈ get_available_actions e ∧
     (name, action_data) ∈ actions st ∧
     grants action_data = Some item ∧
     inventory e' = {[ item ]} ∪ inventory e).
Proof.
  intros Hc Hraise.
  apply (step_method_Raise _ _ _ _ _ Hc) in Hraise
    as [(-> & -> & _)|(st & name & ad & probs & Hst & Hpy & Had & _ & Hrc & ->)].
  { repeat split; auto. }
  split; [by eapply random_choices_Raise|].
  destruct (grants ad) as [item|] eqn:Hg; simpl; repeat split; auto.
  right. exists st, name, ad, item.
  repeat split; try done; eauto using py_index_elem, dict_get_elem.
Qed.

Lemma step_raise_keeps_position_witness :
  (OverflowError = IndexError ∨ OverflowError = ValueError ∨ OverflowError = OverflowError) ∧
  states (with_episode vault "vault" false ({[ "gold" ]} ∪ ∅)) = states vault ∧
  starting_states (with_episode vault "vault" false ({[ "gold" ]} ∪ ∅))
    = starting_states vault ∧
  current_state (with_episode vault "vault" false ({[ "gold" ]} ∪ ∅))
    = current_state vault ∧
  terminal (with_episode vault "vault" false ({[ "gold" ]} ∪ ∅)) = terminal vault ∧
  (inventory (with_episode vault "vault" false ({[ "gold" ]} ∪ ∅)) = inventory vault ∨
   ∃ st name action_data item,
     states vault !! current_state vault = Some st ∧
     name ∈ get_available_actions vault ∧
     (name, action_data) ∈ actions st ∧
     grants action_data = Some item ∧
     inventory (with_episode vault "vault" false ({[ "gold" ]} ∪ ∅))
       = {[ item ]} ∪ inventory vault).
Proof.
  apply (step_raise_keeps_position vault 0 (draws 0.5 0 0)
           (with_episode vault "vault" false ({[ "gold" ]} ∪ ∅)) OverflowError).
  - vm_compute. reflexivity.
  - vm_compute. reflexivity.
Defined.

(** ** The game loop *)

Lemma game_loop_done (env : Env) (loc : Locals) inputs :
  done loc = true → game_loop env loc inputs = (env, loc, None).
Proof. intros H. destruct inputs as [|[[n|] d] rest]; simpl; by rewrite H. Qed.

Lemma game_loop_no_action (env : Env) (loc : Locals) inputs :
  get_available_actions env = [] → game_loop env loc inputs = (env, loc, None).
Proof.
  intros H. destruct inputs as [|[[n|] d] rest]; simpl; rewrite H; simpl;
    by destruct (done loc).
Qed.

Lemma game_loop_no_input (env : Env) (loc : Locals) :
  done loc = false → get_available_actions env ≠ [] →
  game_loop env loc [] = (env, loc, Some EOFError).
Proof.
  intros Hd Hne. simpl. rewrite Hd.
  destruct (is_empty _) eqn:He; [by apply is_empty_nil in He | done].
Qed.

Lemma game_loop_line (env : Env) (loc : Locals) line d rest :
  done loc = false → get_available_actions env ≠ [] →
  game_loop env loc ((line, d) :: rest) =
    match line with
    | None => game_loop env loc rest
    | Some n =>
        if (0 <=? n - 1)%Z && (n - 1 <? Z.of_nat (length (get_available_actions env)))%Z
        then match step_method (n - 1) d env with
             | (env', Ok (obs, r, t)) =>
                 game_loop env' {| observation := obs; reward := Some r; done := t |} rest
             | (env', Raise ValueError) => game_loop env' loc rest
             | (env', Raise x) => (env', loc, Some (EngineError x))
             end
        else game_loop env loc rest
    end.
Proof.
  intros Hd Hne. simpl. rewrite Hd.
  destruct (is_empty _) eqn:He; [by apply is_empty_nil in He|].
  by destruct line.
Qed.

(** A step the driver asks for that returns: the triple is read off the
    engine it leaves, and the configuration is kept. *)
Lemma driver_step_Ok (env : Env) (idx : Z) (d : Draws) (env' : Env) obs r t :
  get_available_actions env ≠ [] →
  (idx < Z.of_nat (length (get_available_actions env)))%Z →
  step_method idx d env = (env', Ok (obs, r, t)) →
  states env' = states env ∧ starting_states env' = starting_states env ∧
  obs = current_state env' ∧ r = reward_of env' ∧ t = terminal env'.
Proof.
  intros Hne Hlt Hm. pose proof (step_method_step env idx d) as Hstep.
  rewrite Hm in Hstep.
  apply step_Ok_cases in Hstep
    as [([Hnil|Hge] & _)|(_ & _ & inv & ns & ec & _ & Hcm & Hse)]; [done|lia|].
  apply commit_constructed in Hcm as [Hs1 Hs2].
  apply settle_Ok in Hse as ([= -> -> ->] & Hs3 & Hs4 & _).
  repeat split; congruence.
Qed.

Lemma driver_step_Raise (env : Env) (idx : Z) (d : Draws) (env' : Env) (x : exn) :
  constructed env = true →
  step_method idx d env = (env', Raise x) →
  states env' = states env ∧ starting_states env' = starting_states env ∧
  current_state env' = current_state env ∧ terminal env' = terminal env.
Proof.
  intros Hc Hm.
  apply (step_method_Raise _ _ _ _ _ Hc) in Hm
    as [(-> & _)|(st & name & ad & probs & _ & _ & _ & _ & _ & ->)]; [done|].
  by destruct (grants ad).
Qed.

Lemma constructed_same_config (env env' : Env) :
  states env' = states env → starting_states env' = starting_states env →
  constructed env' = constructed env.
Proof. intros H1 H2. unfold constructed, has_state. by rewrite H1, H2. Qed.



(** ** How the game ends *)

Lemma reset_constructed (e : Env) (k : nat) (more : list nat) :
  constructed e = true →
  ∃ s, random_choice (starting_states e) k = Ok s ∧
       reset e k more = Some (Ok (with_episode e s false ∅, s)).
Proof.
  intros Hc. destruct (reset_first_draw e k more Hc) as (s & Hs & _ & _ & Hr). eauto.
Qed.

Lemma play_from_loop (env : Env) (obs : string) inputs env' loc fin :
  play_from env obs inputs = (env', loc, fin) →
  ∃ exc,
    game_loop env {| observation := obs; reward := None; done := false |} inputs
      = (env', loc, exc) ∧
    fin = match exc with
          | Some x => Uncaught x
          | None => closing_message env' loc
          end.
Proof.
  unfold play_from. destruct (game_loop _ _ _) as [[env1 loc1] exc].
  intros [= <- <- <-]. eauto.
Qed.



(** X12. When the state [reset] picks has no available action and is not
    "escape_success", [play_game] takes no step whatever is typed, and the
    closing test reads [reward] before it was ever assigned: the game ends
    with [UnboundLocalError]. *)
Theorem game_without_actions_is_unbound (env0 : Env) (k : nat) (more : list nat)
    (inputs : list (option Z * Draws)) (s : string) :
  constructed env0 = true →
  random_choice (starting_states env0) k = Ok s →
  get_available_actions (with_episode env0 s false ∅) = [] →
  s ≠ "escape_success" →
  play_game env0 k more inputs = Some (Uncaught UnboundLocalError).
Proof.
  intros Hc Hpick Hnil Hs. unfold play_game.
  destruct (reset_constructed env0 k more Hc) as (s' & Hpick' & ->).
  assert (s' = s) as -> by congruence.
  unfold play_from. rewrite game_loop_no_action by done. simpl.
  unfold closing_message. simpl.
  by destruct (decide (s = "escape_success")).
Qed.

Lemma game_without_actions_is_unbound_witness :
  play_game shop 1 [] [(Some 1%Z, draws 0 0 0)] = Some (Uncaught UnboundLocalError).
Proof.
  apply (game_without_actions_is_unbound shop 1 [] [(Some 1%Z, draws 0 0 0)] "well").
  - vm_compute. reflexivity.
  - reflexivity.
  - reflexivity.
  - discriminate.
Defined.

(** X14. Lines the driver rejects (no number, or a number that is not
    between 1 and the number of actions listed) never reach the engine: on
    such lines alone the engine and the locals stay as they are and, the
    game not being over, the loop ends with the [EOFError] of the exhausted
    input. No negative index is ever passed to [step]. *)
Theorem rejected_lines_change_nothing (env : Env) (loc : Locals)
    (inputs : list (option Z * Draws)) :
  done loc = false →
  get_available_actions env ≠ [] →
  Forall (λ i, rejected_line (length (get_available_actions env)) i.1) inputs →
  game_loop env loc inputs = (env, loc, Some EOFError).
Proof.
  intros Hd Hne. induction 1 as [|[line d] rest Hrej _ IH].
  - by apply game_loop_no_input.
  - rewrite game_loop_line by done. destruct line as [n|]; [|done].
    simpl in Hrej.
    destruct (_ && _) eqn:Hguard; [|done].
    apply andb_prop in Hguard as [H1%Z.leb_le H2%Z.ltb_lt]. lia.
Qed.

Lemma rejected_lines_change_nothing_witness :
  game_loop jail {| observation := "cell"; reward := None; done := false |}
    [(None, draws 0 0 0); (Some 0%Z, draws 0 0 0); (Some 7%Z, draws 0 0 0);
     (Some (-1)%Z, draws 0 0 0)]
  = (jail, {| observation := "cell"; reward := None; done := false |}, Some EOFError).
Proof.
  apply (rejected_lines_change_nothing jail
           {| observation := "cell"; reward := None; done := false |}).
  - reflexivity.
  - vm_compute. discriminate.
  - repeat constructor; simpl; vm_compute; lia || (right; reflexivity) || (left; reflexivity).
Defined.

(** ** Exceptions of the engine in the game loop *)

Lemma selected_action_Some (e : Env) (idx : Z) (action_data : ActionDef) :
  (0 ≤ idx)%Z →
  selected_action e idx = Some action_data →
  ∃ name st,
    (idx < Z.of_nat (length (get_available_actions e)))%Z ∧
    py_index (get_available_actions e) idx = Ok name ∧
    states e !! current_state e = Some st ∧
    dict_get (actions st) name = Some action_data.
Proof.
  intros Hidx. unfold selected_action.
  destruct (get_available_actions e !! Z.to_nat idx) as [name|] eqn:Hname; [|done].
  simpl. destruct (states e !! current_state e) as [st|]; [|done]. simpl.
  intros Had. exists name, st.
  pose proof (lookup_lt_Some _ _ _ Hname).
  repeat split; try done; [lia|].
  rewrite <- (Z2Nat.id idx) by lia. by apply py_index_nat.
Qed.

Lemma step_method_failed_draw (e : Env) (idx : Z) (d : Draws)
    (action_data : ActionDef) (probs : list (string * number)) (x : exn) :
  (0 ≤ idx)%Z →
  selected_action e idx = Some action_data →
  probabilities action_data = Some probs →
  random_choices (probs.*1) (probs.*2) (choices_draw d) = Raise x →
  step_method idx d e =
    (match grants action_data with
     | Some item => with_episode e (current_state e) (terminal e) ({[ item ]} ∪ inventory e)
     | None => e
     end,
     Raise x).
Proof.
  intros Hidx Hsel Hp Hrc.
  destruct (selected_action_Some e idx action_data Hidx Hsel)
    as (name & st & Hlt & Hpy & Hst & Had).
  assert (Hemp : is_empty (get_available_actions e) = false).
  { destruct (get_available_actions e); [simpl in Hlt; lia | done]. }
  apply Z.leb_gt in Hlt.
  unfold step_method, mbind, method_bind, attr, try_call, inventory_add, mret, method_ret.
  rewrite Hemp, Hlt, Hpy, Hst. simpl. rewrite Had. simpl. rewrite Hp, Hrc.
  by destruct (grants action_data).
Qed.

(** X13. The [try] of the driver encloses the call of [step]. When the
    weighted draw of the action chosen raises [ValueError] (as it does for
    weights that are all zero, or for a total that is not above zero or
    not finite), the exception is taken for a line that is no number: the
    loop goes on with the locals as they were and with the engine as the
    failed step left it, the item the action grants included. Any other
    exception of the draw ([IndexError] for an empty mapping,
    [OverflowError] for an int too large for a float) ends the game. *)
Theorem failed_draw_in_the_loop (env : Env) (loc : Locals) (n : Z) (d : Draws)
    (rest : list (option Z * Draws)) (action_data : ActionDef)
    (probs : list (string * number)) (x : exn) :
  done loc = false →
  (1 ≤ n)%Z →
  selected_action env (n - 1) = Some action_data →
  probabilities action_data = Some probs →
  random_choices (probs.*1) (probs.*2) (choices_draw d) = Raise x →
  let env' := match grants action_data with
              | Some item =>
                  with_episode env (current_state env) (terminal env)
                    ({[ item ]} ∪ inventory env)
              | None => env
              end in
  game_loop env loc ((Some n, d) :: rest) =
    match x with
    | ValueError => game_loop env' loc rest
    | _ => (env', loc, Some (EngineError x))
    end.
Proof.
  intros Hd Hn Hsel Hp Hrc env'.
  destruct (selected_action_Some env (n - 1) action_data ltac:(lia) Hsel)
    as (name & st & Hlt & _).
  assert (Hne : get_available_actions env ≠ []).
  { intros Heq. rewrite Heq in Hlt. simpl in Hlt. lia. }
  rewrite game_loop_line by done.
  assert (Hguard : (0 <=? n - 1)%Z
                   && (n - 1 <? Z.of_nat (length (get_available_actions env)))%Z = true).
  { apply andb_true_intro. split; [apply Z.leb_le | apply Z.ltb_lt]; lia. }
  rewrite Hguard.
  rewrite (step_method_failed_draw env (n - 1) d action_data probs x) by (done || lia).
  fold env'. by destruct x.
Qed.

Lemma failed_draw_in_the_loop_witness :
  game_loop shop {| observation := "shop"; reward := None; done := false |}
    [(Some 2%Z, draws 0 0 0); (Some 3%Z, draws 0 0 0)] =
  game_loop (with_episode shop "shop" false ({[ "coin" ]} ∪ ∅))
    {| observation := "shop"; reward := None; done := false |}
    [(Some 3%Z, draws 0 0 0)].
Proof.
  apply (failed_draw_in_the_loop shop
           {| observation := "shop"; reward := None; done := false |} 2 (draws 0 0 0)
           [(Some 3%Z, draws 0 0 0)]
           (action None (Some "coin") None (Some [("street", PyInt 0); ("shop", PyInt 0)]))
           [("street", PyInt 0); ("shop", PyInt 0)] ValueError).
  - reflexivity.
  - lia.
  - vm_compute. reflexivity.
  - reflexivity.
  - vm_compute. reflexivity.
Defined.

Lemma graph_weights_ok_action (graph : gmap string StateDef) s st name action_data probs :
  graph_weights_ok graph = true →
  graph !! s = Some st →
  dict_get (actions st) name = Some action_data →
  probabilities action_data = Some probs →
  weights_usable (probs.*2) = true.
Proof.
  unfold graph_weights_ok. intros Hall Hs Hname Hp.
  rewrite forallb_forall in Hall.
  specialize (Hall (s, st)). simpl in Hall.
  rewrite forallb_forall in Hall.
  specialize (Hall ltac:(by apply list_elem_of_In, elem_of_map_to_list) (name, action_data)).
  simpl in Hall. unfold action_weights_ok in Hall. rewrite Hp in Hall.
  apply Hall. by apply list_elem_of_In, dict_get_elem.
Qed.

Lemma game_loop_no_engine_error (inputs : list (option Z * Draws)) :
  ∀ env loc env' loc' exc,
    constructed env = true →
    graph_weights_ok (states env) = true →
    game_loop env loc inputs = (env', loc', exc) →
    exc = None ∨ exc = Some EOFError.
Proof.
  induction inputs as [|[line d] rest IH]; intros env loc env' loc' exc Hc Hw Hloop.
  - destruct (done loc) eqn:Hd.
    { rewrite game_loop_done in Hloop by done. injection Hloop as <- <- <-. auto. }
    destruct (decide (get_available_actions env = [])) as [Hnil|Hne].
    { rewrite game_loop_no_action in Hloop by done. injection Hloop as <- <- <-. auto. }
    rewrite game_loop_no_input in Hloop by done. injection Hloop as <- <- <-. auto.
  - destruct (done loc) eqn:Hd.
    { rewrite game_loop_done in Hloop by done. injection Hloop as <- <- <-. auto. }
    destruct (decide (get_available_actions env = [])) as [Hnil|Hne].
    { rewrite game_loop_no_action in Hloop by done. injection Hloop as <- <- <-. auto. }
    rewrite game_loop_line in Hloop by done.
    destruct line as [n|]; [|by eapply IH].
    destruct (_ && _) eqn:Hguard; [|by eapply IH].
    apply andb_prop in Hguard as [Hge%Z.leb_le Hlt%Z.ltb_lt].
    destruct (step_method (n - 1) d env) as [env1 [[[obs r] t]|x]] eqn:Hm.
    + destruct (driver_step_Ok _ _ _ _ _ _ _ Hne Hlt Hm) as (H1 & H2 & _).
      eapply IH; [| |exact Hloop].
      * by rewrite (constructed_same_config env env1).
      * by rewrite H1.
    + exfalso.
      apply (step_method_Raise _ _ _ _ _ Hc) in Hm
        as [(_ & _ & Hpy)|(st & name & ad & probs & Hst & _ & Had & Hp & Hrc & _)].
      * destruct (lookup_lt_is_Some_2 (get_available_actions env) (Z.to_nat (n - 1)))
          as [name Hname]; [lia|].
        apply py_index_nat in Hname. rewrite Z2Nat.id in Hname by lia. congruence.
      * pose proof (graph_weights_ok_action _ _ _ _ _ _ Hw Hst Had Hp) as Huse.
        destruct (random_choices_usable (probs.*1) (probs.*2) (choices_draw d)
                    ltac:(by rewrite !length_fmap) Huse)
          as (_ & _ & _ & y & _ & _ & _ & _ & _ & Hok).
        congruence.
Qed.

(** X15. On a constructed engine whose [probabilities] mappings all have
    usable weights (the running sums can be formed and the last, taken to a
    float, is above zero and finite), [play_game] never ends with an
    exception of the engine: whatever is typed and drawn, it ends with a
    closing message, with the [EOFError] of the exhausted input, or with
    the [UnboundLocalError] of a game that took no step. *)
Theorem play_game_ends (env0 : Env) (k : nat) (more : list nat)
    (inputs : list (option Z * Draws)) :
  constructed env0 = true →
  graph_weights_ok (states env0) = true →
  ∃ fin, play_game env0 k more inputs = Some fin ∧
         ((∃ v, fin = Message v) ∨
          fin = Uncaught EOFError ∨
          fin = Uncaught UnboundLocalError).
Proof.
  intros Hc Hw. unfold play_game.
  destruct (reset_constructed env0 k more Hc) as (s & _ & ->).
  destruct (play_from (with_episode env0 s false ∅) s inputs) as [[env' loc] fin] eqn:Hfrom.
  exists fin. split; [done|].
  apply play_from_loop in Hfrom as (exc & Hloop & ->).
  apply game_loop_no_engine_error in Hloop as [->| ->]; [|by auto|done|done].
  unfold closing_message.
  destruct (decide _); [by eauto|].
  destruct (reward loc) as [r|]; [|by auto].
  destruct (r =? -1)%Z; eauto.
Qed.

Lemma play_game_ends_witness :
  ∃ fin, play_game yard 0 [] [(Some 1%Z, draws 0 0 0); (Some 2%Z, draws 0.125 0 0)]
           = Some fin ∧
         ((∃ v, fin = Message v) ∨
          fin = Uncaught EOFError ∨
          fin = Uncaught UnboundLocalError).
Proof.
  apply (play_game_ends yard 0 []
           [(Some 1%Z, draws 0 0 0); (Some 2%Z, draws 0.125 0 0)]).
  - vm_compute. reflexivity.
  - vm_compute. reflexivity.
Defined.

(** ** The description shown, and the items kept *)

(** X16. After a step that returns, on a constructed engine whose current
    state was a state of the graph, [get_state_description] describes a
    state of the graph, the one the engine is in: it yields that state's
    [description], and the text "Unknown state." only when the state has
    none. *)
Theorem description_after_step (e : Env) (idx : Z) (d : Draws) (e' : Env) (o : Observation) :
  constructed e = true →
  has_state e (current_state e) = true →
  step e idx d = Ok (e', o) →
  ∃ st, states e !! current_state e' = Some st ∧
        get_state_description e' = default "Unknown state." (description st).
Proof.
  intros Hc Hcur Hstep.
  assert (H : states e' = states e ∧ has_state e' (current_state e') = true).
  { apply step_Ok_cases in Hstep
      as [(_ & -> & _)|(_ & _ & inv & ns & ec & _ & Hcm & Hse)]; [done|].
    apply commit_Ok in Hcm as (cs & st & _ & Hst & ->).
    apply settle_Ok in Hse as (_ & Hstates & _ & _ & _ & Hcase). simpl in *.
    split; [done|]. unfold has_state. rewrite Hstates.
    destruct Hcase as [(_ & _ & Hpick)|[-> _]].
    - apply random_choice_elem in Hpick.
      apply constructed_starting in Hc as [_ Hall]. by apply Hall.
    - simpl. unfold is_state. by rewrite Hst. }
  destruct H as [Hstates Hhas].
  apply has_state_lookup in Hhas as [st Hst].
  exists st. split; [by rewrite <- Hstates|].
  unfold get_state_description. by rewrite Hst.
Qed.

Lemma description_after_step_witness :
  ∃ st, states (with_episode shop "shop" false ({[ "coin" ]} ∪ ∅))
          !! current_state (with_episode shop "street" true ({[ "coin" ]} ∪ ∅)) = Some st ∧
        get_state_description (with_episode shop "street" true ({[ "coin" ]} ∪ ∅))
          = default "Unknown state." (description st).
Proof.
  apply (description_after_step (with_episode shop "shop" false ({[ "coin" ]} ∪ ∅))
           2 (draws 0 0 0)
           (with_episode shop "street" true ({[ "coin" ]} ∪ ∅))
           ("street", (-1)%Z, true)).
  - vm_compute. reflexivity.
  - vm_compute. reflexivity.
  - vm_compute. reflexivity.
Defined.

Lemma step_Ok_inventory (e : Env) (idx : Z) (d : Draws) (e' : Env) (o : Observation) :
  step e idx d = Ok (e', o) → inventory e ⊆ inventory e'.
Proof.
  intros Hstep.
  apply step_Ok_cases in Hstep
    as [(_ & -> & _)|(_ & _ & inv & ns & ec & Hres & Hcm & Hse)]; [done|].
  apply resolve_Ok in Hres as (name & st & ad & _ & _ & _ & -> & _).
  apply commit_Ok in Hcm as (cs & st' & _ & _ & ->).
  destruct (settle_Ok _ _ _ _ Hse) as (_ & _ & _ & _ & Hinv & _). simpl in Hinv.
  rewrite Hinv. destruct (grants ad); [apply union_subseteq_r | done].
Qed.

(** X17. Through the whole game loop, on a constructed engine, the state
    graph and the starting states stay the same and no item is ever lost:
    what was held when a round began is held when the loop ends, whether the
    steps returned or raised. *)
Theorem game_loop_keeps_items (inputs : list (option Z * Draws)) (env : Env)
    (loc : Locals) (env' : Env) (loc' : Locals) (exc : option driver_exn) :
  constructed env = true →
  game_loop env loc inputs = (env', loc', exc) →
  states env' = states env ∧
  starting_states env' = starting_states env ∧
  inventory env ⊆ inventory env'.
Proof.
  revert env loc. induction inputs as [|[line d] rest IH]; intros env loc Hc Hloop.
  - destruct (done loc) eqn:Hd.
    { rewrite game_loop_done in Hloop by done. by injection Hloop as <- <- <-. }
    destruct (decide (get_available_actions env = [])) as [Hnil|Hne].
    { rewrite game_loop_no_action in Hloop by done. by injection Hloop as <- <- <-. }
    rewrite game_loop_no_input in Hloop by done. by injection Hloop as <- <- <-.
  - destruct (done loc) eqn:Hd.
    { rewrite game_loop_done in Hloop by done. by injection Hloop as <- <- <-. }
    destruct (decide (get_available_actions env = [])) as [Hnil|Hne].
    { rewrite game_loop_no_action in Hloop by done. by injection Hloop as <- <- <-. }
    rewrite game_loop_line in Hloop by done.
    destruct line as [n|]; [|by eapply IH].
    destruct (_ && _) eqn:Hguard; [|by eapply IH].
    apply andb_prop in Hguard as [_ Hlt%Z.ltb_lt].
    destruct (step_method (n - 1) d env) as [env1 [[[obs r] t]|x]] eqn:Hm.
    + destruct (driver_step_Ok _ _ _ _ _ _ _ Hne Hlt Hm) as (H1 & H2 & _).
      pose proof (step_method_step env (n - 1) d) as Hstep. rewrite Hm in Hstep.
      apply step_Ok_inventory in Hstep.
      apply IH in Hloop as (H3 & H4 & H5);
        [|by rewrite (constructed_same_config env env1)].
      split; [congruence|]. split; [congruence|]. by etrans.
    + destruct (driver_step_Raise _ _ _ _ _ Hc Hm) as (H1 & H2 & _).
      assert (Hsub : inventory env ⊆ inventory env1).
      { apply (step_method_Raise _ _ _ _ _ Hc) in Hm
          as [(-> & _)|(st & name & ad & probs & _ & _ & _ & _ & _ & ->)]; [done|].
        destruct (grants ad); [apply union_subseteq_r | done]. }
      destruct x.
      2:{ apply IH in Hloop as (H3 & H4 & H5);
            [|by rewrite (constructed_same_config env env1)].
          split; [congruence|]. split; [congruence|]. by etrans. }
      all: by injection Hloop as <- <- <-.
Qed.

Lemma game_loop_keeps_items_witness :
  states (with_episode shop "street" true ({[ "coin" ]} ∪ ∅)) = states shop ∧
  starting_states (with_episode shop "street" true ({[ "coin" ]} ∪ ∅))
    = starting_states shop ∧
  inventory shop ⊆ inventory (with_episode shop "street" true ({[ "coin" ]} ∪ ∅)).
Proof.
  apply (game_loop_keeps_items
           [(Some 2%Z, draws 0 0 0); (Some 3%Z, draws 0 0 0)]
           shop {| observation := "shop"; reward := None; done := false |}
           (with_episode shop "street" true ({[ "coin" ]} ∪ ∅))
           {| observation := "street"; reward := Some (-1)%Z; done := true |} None).
  - vm_compute. reflexivity.
  - vm_compute. reflexivity.
Defined.
